(** * Resume analyzer: a shallow embedding of [resume_analyzer.py]

    The development follows the methods of the Python class
    [ResumeAnalyzer]: the text normalizer [clean_text], the regular
    expression based field extractors, the skill matcher, the frequency
    analyzer, the job matcher and the orchestrator [analyze_resume].

    Conventions.
    - A Python [str] is a [list ascii]; a character is one of the code
      points U+0000..U+00FF, and the Unicode predicates Python consults
      ([str.lower], [str.isspace], [str.isalpha], the classes [\s], [\d],
      [\w] of the [re] module) are written out on that range.
    - The regular expressions of the program are values of a small
      syntax with a backtracking matcher that explores alternatives in
      the order of Python's [re] engine (greedy first).
    - NLTK's tokenizer and stopword list, PyMuPDF and the word cloud
      renderer are not part of the program: they are section variables. *)

From Stdlib Require Import Ascii String List Bool Arith Lia ZArith QArith Sorted.
From stdpp Require Import base decidable option list strings gmap sorting.
Import ListNotations.

Local Open Scope nat_scope.
Local Open Scope list_scope.

(** ** Strings and characters *)

Abbreviation str := (list ascii).

(** Python string literal. *)
Definition lit (s : string) : str := list_ascii_of_string s.

Module Char.

Definition code (c : ascii) : N := N_of_ascii c.

Definition between (lo hi : N) (c : ascii) : bool :=
  ((lo <=? code c) && (code c <=? hi))%N.

Definition exactly (x : ascii) (c : ascii) : bool := Ascii.eqb x c.

Definition oneof (xs : string) (c : ascii) : bool :=
  existsb (Ascii.eqb c) (list_ascii_of_string xs).

Definition upper_az : ascii -> bool := between 65 90.
Definition lower_az : ascii -> bool := between 97 122.
Definition digit : ascii -> bool := between 48 57.
Definition letter (c : ascii) : bool := upper_az c || lower_az c.

(** [str.isspace] and the class [\s]: U+0009..U+000D, U+001C..U+0020,
    U+0085 and U+00A0. *)
Definition isspace (c : ascii) : bool :=
  between 9 13 c || between 28 32 c || (code c =? 133)%N || (code c =? 160)%N.

(** Upper-case letters of the Latin-1 supplement: U+00C0..U+00DE
    without the multiplication sign U+00D7. *)
Definition upper_latin1 (c : ascii) : bool :=
  between 192 214 c || between 216 222 c.

(** [str.isalpha] per character. *)
Definition isalpha (c : ascii) : bool :=
  letter c || (code c =? 170)%N || (code c =? 181)%N || (code c =? 186)%N
  || between 192 214 c || between 216 246 c || between 248 255 c.

(** The class [\w]: alphanumeric in the sense of [str.isalnum], or the
    underscore. *)
Definition isword (c : ascii) : bool :=
  isalpha c || digit c || exactly "_" c
  || between 178 179 c || (code c =? 185)%N || between 188 190 c.

(** [str.lower] per character: every cased character of the range has
    its lower-case partner 32 code points above it. *)
Definition lower (c : ascii) : ascii :=
  if upper_az c || upper_latin1 c then ascii_of_N (code c + 32) else c.

End Char.

(** [text.lower()] *)
Definition lower (s : str) : str := map Char.lower s.

(** [text.strip()] *)
Fixpoint lstrip (s : str) : str :=
  match s with
  | c :: s' => if Char.isspace c then lstrip s' else s
  | [] => []
  end.

Definition rstrip (s : str) : str := rev (lstrip (rev s)).

Definition strip (s : str) : str := rstrip (lstrip s).

(** [text.split()]: the maximal runs of non-whitespace characters.
    [cur] is the run being read, in reverse. *)
Fixpoint split_acc (cur : str) (s : str) : list str :=
  match s with
  | [] => match cur with [] => [] | _ => [rev cur] end
  | c :: s' =>
      if Char.isspace c
      then match cur with
           | [] => split_acc [] s'
           | _ => rev cur :: split_acc [] s'
           end
      else split_acc (c :: cur) s'
  end.

Definition split (s : str) : list str := split_acc [] s.

(** ** Regular expressions *)

Module Re.

(** The constructs the program's patterns are built from. Repetition
    is applied to character classes only, as in the source. *)
Inductive regex : Type :=
| Eps                                             (* empty pattern *)
| Chr (p : ascii -> bool)                         (* a class or a literal *)
| WordB                                           (* \b *)
| Cat (r1 r2 : regex)                             (* r1 r2 *)
| Opt (r : regex)                                 (* r? *)
| Rep (p : ascii -> bool) (lo : nat) (hi : option nat)   (* [p]{lo,hi} *)
| Grp (r : regex).                                (* ( r ) *)

Declare Scope re_scope.
Delimit Scope re_scope with re.
Bind Scope re_scope with regex.
Infix "&" := Cat (at level 60, right associativity) : re_scope.

(** Number of capturing groups, [Pattern.groups]. *)
Fixpoint groups (re : regex) : nat :=
  match re with
  | Cat r1 r2 => groups r1 + groups r2
  | Opt r => groups r
  | Grp r => S (groups r)
  | _ => 0
  end.

(** A position in the subject: the text before the cursor in reverse,
    and the text after it. *)
Definition first_is_word (s : str) : bool :=
  match s with c :: _ => Char.isword c | [] => false end.

Definition at_boundary (l r : str) : bool :=
  xorb (first_is_word l) (first_is_word r).

Definition more_allowed (hi : option nat) : bool :=
  match hi with Some h => 0 <? h | None => true end.

Definition dec_bound (hi : option nat) : option nat :=
  match hi with Some h => Some (pred h) | None => None end.

Section Matcher.
Context {A : Type}.

(** A continuation receives the position after the match and the
    content of group 1. *)
Definition cont : Type := str -> str -> option str -> option A.

(** Greedy bounded repetition of a class: take one more character
    when allowed, and fall back to stopping here. *)
Fixpoint rep (p : ascii -> bool) (lo : nat) (hi : option nat)
    (l r : str) (g : option str) (k : cont) : option A :=
  let stop := match lo with 0 => k l r g | S _ => None end in
  match r with
  | c :: r' =>
      if p c && more_allowed hi
      then match rep p (pred lo) (dec_bound hi) (c :: l) r' g k with
           | Some a => Some a
           | None => stop
           end
      else stop
  | [] => stop
  end.

Fixpoint run (re : regex) (l r : str) (g : option str) (k : cont)
    : option A :=
  match re with
  | Eps => k l r g
  | Chr p =>
      match r with
      | c :: r' => if p c then k (c :: l) r' g else None
      | [] => None
      end
  | WordB => if at_boundary l r then k l r g else None
  | Cat r1 r2 => run r1 l r g (fun l' r' g' => run r2 l' r' g' k)
  | Opt r1 =>
      match run r1 l r g k with
      | Some a => Some a
      | None => k l r g
      end
  | Rep p lo hi => rep p lo hi l r g k
  | Grp r1 =>
      run r1 l r g
        (fun l' r' _ => k l' r' (Some (rev (take (length l' - length l) l'))))
  end.
End Matcher.

(** A match: the matched text and the content of group 1, if the group
    took part in the match. *)
Definition found : Type := str * option str.

Definition match_at (re : regex) (l r : str) : option found :=
  run re l r None
    (fun l' _ g => Some (rev (take (length l' - length l) l'), g)).

(** [re.search]: the match at the leftmost position that has one. *)
Fixpoint search_from (re : regex) (l r : str) : option found :=
  match match_at re l r with
  | Some m => Some m
  | None =>
      match r with
      | c :: r' => search_from re (c :: l) r'
      | [] => None
      end
  end.

Definition search (re : regex) (text : str) : option found :=
  search_from re [] text.

(** The successive non-overlapping matches, left to right. [skip]
    counts the characters of the last match still to be passed. *)
Fixpoint scan (re : regex) (skip : nat) (l r : str) {struct r}
    : list found :=
  match skip with
  | S n =>
      match r with
      | c :: r' => scan re n (c :: l) r'
      | [] => []
      end
  | 0 =>
      match match_at re l r with
      | Some m =>
          m :: match r with
               | c :: r' => scan re (pred (length (fst m))) (c :: l) r'
               | [] => []
               end
      | None =>
          match r with
          | c :: r' => scan re 0 (c :: l) r'
          | [] => []
          end
      end
  end.

(** What [re.findall] reports for a match: the whole match for a
    pattern without group, the content of the group for a pattern with
    one group, the empty string when the group took no part. *)
Definition report (re : regex) (m : found) : str :=
  match groups re with
  | 0 => fst m
  | _ => match snd m with Some g => g | None => [] end
  end.

Definition findall (re : regex) (text : str) : list str :=
  map (report re) (scan re 0 [] text).

(** [re.sub] with a constant replacement, for patterns whose matches
    are never empty. *)
Fixpoint sub_from (re : regex) (repl : str) (skip : nat) (l r : str)
    {struct r} : str :=
  match r with
  | [] => []
  | c :: r' =>
      match skip with
      | S n => sub_from re repl n (c :: l) r'
      | 0 =>
          match match_at re l r with
          | Some ((_ :: _) as m, _) =>
              repl ++ sub_from re repl (pred (length m)) (c :: l) r'
          | _ => c :: sub_from re repl 0 (c :: l) r'
          end
      end
  end.

Definition sub (re : regex) (repl : str) (text : str) : str :=
  sub_from re repl 0 [] text.

(** [re.escape(s)] compiled: the pattern matching exactly [s]. *)
Fixpoint escape (s : str) : regex :=
  match s with
  | [] => Eps
  | c :: s' => Cat (Chr (Char.exactly c)) (escape s')
  end.

End Re.

(** ** The analyzer *)

Import Re.
Local Open Scope re_scope.

(** [' '.join(words)] *)
Fixpoint join (sep : str) (ws : list str) : str :=
  match ws with
  | [] => []
  | [w] => w
  | w :: ws' => w ++ sep ++ join sep ws'
  end.

(** [ResumeAnalyzer.clean_text]. The first substitution replaces the
    characters outside [[a-zA-Z0-9\s+#.]], the second one every run of
    whitespace. *)
Definition clean_keep (c : ascii) : bool :=
  Char.lower_az c || Char.upper_az c || Char.digit c || Char.isspace c
  || Char.oneof "+#." c.

Definition clean_text (text : str) : str :=
  let text := lower text in
  let text := Re.sub (Chr (fun c => negb (clean_keep c))) (lit " ") text in
  let text := Re.sub (Rep Char.isspace 1 None) (lit " ") text in
  strip text.

Definition not_found : str := lit "Not found".

(** [\b[A-Za-z0-9._%+-]+@[A-Za-z0-9.-]+\.[A-Z|a-z]{2,}\b] *)
Definition email_local (c : ascii) : bool :=
  Char.letter c || Char.digit c || Char.oneof "._%+-" c.
Definition email_domain (c : ascii) : bool :=
  Char.letter c || Char.digit c || Char.oneof ".-" c.
Definition email_tld (c : ascii) : bool :=
  Char.upper_az c || Char.exactly "|" c || Char.lower_az c.

Definition email_pattern : regex :=
  WordB & Rep email_local 1 None & Chr (Char.exactly "@")
  & Rep email_domain 1 None & Chr (Char.exactly ".")
  & Rep email_tld 2 None & WordB.

(** [ResumeAnalyzer.extract_email] *)
Definition extract_email (text : str) : str :=
  match findall email_pattern text with
  | e :: _ => e
  | [] => not_found
  end.

(** [(\+?\d{1,3}[-.\s]?)?\(?\d{3}\)?[-.\s]?\d{3}[-.\s]?\d{4}] *)
Definition phone_sep (c : ascii) : bool :=
  Char.oneof "-." c || Char.isspace c.

Definition phone_pattern : regex :=
  Opt (Grp (Opt (Chr (Char.exactly "+")) & Rep Char.digit 1 (Some 3)
            & Opt (Chr phone_sep)))
  & Opt (Chr (Char.exactly "(")) & Rep Char.digit 3 (Some 3)
  & Opt (Chr (Char.exactly ")")) & Opt (Chr phone_sep)
  & Rep Char.digit 3 (Some 3) & Opt (Chr phone_sep)
  & Rep Char.digit 4 (Some 4).

(** [ResumeAnalyzer.extract_phone] *)
Definition extract_phone (text : str) : str :=
  match findall phone_pattern text with
  | p :: _ => p
  | [] => not_found
  end.

(** [self.skill_keywords], in the order of the dictionary literal. *)
Definition skill_keywords : list (str * list str) :=
  [ (lit "programming",
      map lit ["python"; "java"; "javascript"; "c++"; "c#"; "ruby"; "php";
               "swift"; "kotlin"; "go"; "rust"; "typescript"; "sql"; "r"]);
    (lit "web",
      map lit ["html"; "css"; "react"; "angular"; "vue"; "nodejs"; "django";
               "flask"; "fastapi"; "express"; "next.js"; "bootstrap";
               "tailwind"]);
    (lit "data_science",
      map lit ["machine learning"; "deep learning"; "nlp"; "tensorflow";
               "pytorch"; "pandas"; "numpy"; "scikit-learn"; "data analysis";
               "statistics"; "matplotlib"; "seaborn"; "tableau"; "power bi"]);
    (lit "cloud",
      map lit ["aws"; "azure"; "gcp"; "docker"; "kubernetes"; "jenkins";
               "terraform"; "ansible"; "cicd"; "devops"]);
    (lit "database",
      map lit ["mongodb"; "postgresql"; "mysql"; "redis"; "elasticsearch";
               "oracle"; "cassandra"; "dynamodb"]);
    (lit "soft_skills",
      map lit ["leadership"; "communication"; "teamwork"; "problem solving";
               "analytical"; "creative"; "management"; "agile"; "scrum"]) ]%string.

(** [r'\b' + re.escape(skill) + r'\b'] *)
Definition skill_pattern (skill : str) : regex :=
  WordB & escape skill & WordB.

(** [re.search(pattern, text_lower)] as a truth value. *)
Definition skill_in (text_lower : str) (skill : str) : bool :=
  match search (skill_pattern skill) text_lower with
  | Some _ => true
  | None => false
  end.

(** [ResumeAnalyzer.extract_skills], for a given taxonomy: a category is
    entered only when one of its skills was found. *)
Fixpoint skills_of (taxonomy : list (str * list str)) (text_lower : str)
    : list (str * list str) :=
  match taxonomy with
  | [] => []
  | (category, skills) :: rest =>
      match List.filter (skill_in text_lower) skills with
      | [] => skills_of rest text_lower
      | found => (category, found) :: skills_of rest text_lower
      end
  end.

Definition extract_skills (text : str) : list (str * list str) :=
  skills_of skill_keywords (lower text).

(** The stopwords [__init__] falls back to when NLTK's list is missing. *)
Definition basic_stopwords : list str :=
  map lit
    ["i"; "me"; "my"; "myself"; "we"; "our"; "ours"; "ourselves"; "you";
     "your"; "yours"; "yourself"; "yourselves"; "he"; "him"; "his"; "himself";
     "she"; "her"; "hers"; "herself"; "it"; "its"; "itself"; "they"; "them";
     "their"; "theirs"; "themselves"; "what"; "which"; "who"; "whom"; "this";
     "that"; "these"; "those"; "am"; "is"; "are"; "was"; "were"; "be"; "been";
     "being"; "have"; "has"; "had"; "having"; "do"; "does"; "did"; "doing";
     "a"; "an"; "the"; "and"; "but"; "if"; "or"; "because"; "as"; "until";
     "while"; "of"; "at"; "by"; "for"; "with"; "about"; "against"; "between";
     "into"; "through"; "during"; "before"; "after"; "above"; "below"; "to";
     "from"; "up"; "down"; "in"; "out"; "on"; "off"; "over"; "under"; "again";
     "further"; "then"; "once"]%string.

(** [word.isalpha()] *)
Definition isalpha (w : str) : bool :=
  match w with
  | [] => false
  | _ => forallb Char.isalpha w
  end.

(** [collections.Counter]: a dictionary in insertion order. Counting an
    element increments its entry in place or appends a new one. *)
Fixpoint count_one (w : str) (c : list (str * nat)) : list (str * nat) :=
  match c with
  | [] => [(w, 1)]
  | (w', n) :: c' =>
      if decide (w' = w) then (w', S n) :: c' else (w', n) :: count_one w c'
  end.

Definition Counter (elems : list str) : list (str * nat) :=
  fold_left (fun c w => count_one w c) elems [].

(** [sorted(items, key=itemgetter(1), reverse=True)]: a stable sort by
    decreasing count. An item is put in front of the items, all later in
    the input, whose count does not exceed its own. *)
Fixpoint insert_desc (x : str * nat) (l : list (str * nat))
    : list (str * nat) :=
  match l with
  | [] => [x]
  | y :: l' => if snd x <? snd y then y :: insert_desc x l' else x :: l
  end.

Definition sorted_desc (items : list (str * nat)) : list (str * nat) :=
  fold_right insert_desc [] items.

(** [Counter.most_common(n)] for an integer [n]: [heapq.nlargest], that
    is the first [n] items of the sorted list and none for [n <= 0]. *)
Definition most_common (c : list (str * nat)) (n : Z) : list (str * nat) :=
  take (Z.to_nat n) (sorted_desc c).

(** [dict(pairs)]: a later pair for a key present replaces its value in
    place. *)
Fixpoint dict_set (k : str) (v : nat) (d : list (str * nat))
    : list (str * nat) :=
  match d with
  | [] => [(k, v)]
  | (k', v') :: d' =>
      if decide (k' = k) then (k', v) :: d' else (k', v') :: dict_set k v d'
  end.

Definition dict (pairs : list (str * nat)) : list (str * nat) :=
  fold_left (fun d kv => dict_set (fst kv) (snd kv) d) pairs [].

(** Outcome of a call that may raise. *)
Inductive outcome (E A : Type) : Type :=
| Returns (a : A)
| Raises (e : E).
Arguments Returns {E A} a.
Arguments Raises {E A} e.

Record job_match_data : Type := JobMatch {
  percentage : Q;
  matching_keywords : gset str;
  missing_keywords : gset str
}.

Record analysis (image : Type) : Type := Analysis {
  text : str;
  email : str;
  phone : str;
  skills : list (str * list str);
  word_frequency : list (str * nat);
  wordcloud : image;
  job_match : option job_match_data
}.
Arguments Analysis {image}.
Arguments text {image}.
Arguments email {image}.
Arguments phone {image}.
Arguments skills {image}.
Arguments word_frequency {image}.
Arguments wordcloud {image}.
Arguments job_match {image}.

Section Analyzer.

(** NLTK: [stopwords.words('english')] and [word_tokenize]; [None] is
    the [LookupError] raised when the resource is not installed. *)
Variable nltk_stopwords : option (list str).
Variable word_tokenize : str -> option (list str).

(** PyMuPDF: the texts of the pages of a document, or the exception
    raised while reading it; [exn_message] is [str(e)]. The word cloud
    renderer with the plotting code that follows it. *)
Variables (pdf exn image : Type).
Variable read_pages : pdf -> outcome exn (list str).
Variable exn_message : exn -> str.
Variable render_cloud : str -> outcome exn image.

(** [self.stop_words] *)
Definition stop_words : gset str :=
  match nltk_stopwords with
  | Some ws => list_to_set ws
  | None => list_to_set basic_stopwords
  end.

(** [word_tokenize(cleaned_text)] with its fallback. *)
Definition tokenize (cleaned_text : str) : list str :=
  match word_tokenize cleaned_text with
  | Some tokens => tokens
  | None => split cleaned_text
  end.

(** [ResumeAnalyzer.extract_text_from_pdf] *)
Definition extract_text_from_pdf (pdf_file : pdf) : str :=
  match read_pages pdf_file with
  | Returns pages => concat pages
  | Raises e => lit "Error extracting text: " ++ exn_message e
  end.

Definition frequency_word (word : str) : bool :=
  bool_decide (word ∉ stop_words) && (2 <? length word) && isalpha word.

(** [ResumeAnalyzer.get_word_frequency] *)
Definition get_word_frequency (text : str) (top_n : Z)
    : list (str * nat) :=
  let cleaned_text := clean_text text in
  let tokens := tokenize cleaned_text in
  let filtered_tokens := List.filter frequency_word tokens in
  let word_freq := Counter filtered_tokens in
  dict (most_common word_freq top_n).

Definition cloud_word (word : str) : bool :=
  bool_decide (word ∉ stop_words) && (2 <? length word).

(** [ResumeAnalyzer.generate_wordcloud] *)
Definition generate_wordcloud (text : str) : outcome exn image :=
  let cleaned_text := clean_text text in
  let tokens := tokenize cleaned_text in
  let filtered_text := join (lit " ") (List.filter cloud_word tokens) in
  render_cloud filtered_text.

(** A token that is kept by the job matcher. *)
Definition significant (w : str) : Prop :=
  (w ∉ stop_words) ∧ (2 < length w).

#[local] Instance significant_dec w : Decision (significant w).
Proof. unfold significant. apply _. Defined.

(** The two token sets of [calculate_job_match] after the stopword and
    length filter: [(resume_tokens, job_tokens)]. The fallback replaces
    both tokenizations when either call raises. *)
Definition token_sets (resume_text job_description : str)
    : gset str * gset str :=
  let resume_clean := clean_text resume_text in
  let job_clean := clean_text job_description in
  let '(resume_tokens, job_tokens) :=
    match word_tokenize resume_clean, word_tokenize job_clean with
    | Some rt, Some jt =>
        (list_to_set rt : gset str, list_to_set jt : gset str)
    | _, _ =>
        (list_to_set (split resume_clean), list_to_set (split job_clean))
    end in
  (filter significant resume_tokens, filter significant job_tokens).

(** [ResumeAnalyzer.calculate_job_match] *)
Definition calculate_job_match (resume_text job_description : str)
    : Q * gset str * gset str :=
  let '(resume_tokens, job_tokens) :=
    token_sets resume_text job_description in
  if decide (job_tokens = ∅) then (0%Q, ∅, ∅)
  else
    let matching_keywords := resume_tokens ∩ job_tokens in
    let missing_keywords := job_tokens ∖ resume_tokens in
    let match_percentage :=
      ((Z.of_nat (size matching_keywords) # 1)
         / (Z.of_nat (size job_tokens) # 1) * 100)%Q in
    (match_percentage, matching_keywords, missing_keywords).

(** [ResumeAnalyzer.analyze_resume]. The only stage that may raise is
    the renderer; the job description is used when it is given and not
    empty. *)
Definition analyze_resume (pdf_file : pdf) (job_description : option str)
    : outcome exn (analysis image) :=
  let text := extract_text_from_pdf pdf_file in
  let email := extract_email text in
  let phone := extract_phone text in
  let skills := extract_skills text in
  let word_freq := get_word_frequency text 20 in
  match generate_wordcloud text with
  | Raises e => Raises e
  | Returns wordcloud_img =>
      let job_match_data :=
        match job_description with
        | Some ((_ :: _) as jd) =>
            let '(match_pct, matching, missing) :=
              calculate_job_match text jd in
            Some (JobMatch match_pct matching missing)
        | _ => None
        end in
      Returns (Analysis text email phone skills word_freq wordcloud_img
                 job_match_data)
  end.

End Analyzer.

Arguments extract_text_from_pdf {pdf exn} read_pages exn_message pdf_file.
Arguments generate_wordcloud nltk_stopwords word_tokenize {exn image}
  render_cloud text.
Arguments analyze_resume nltk_stopwords word_tokenize {pdf exn image}
  read_pages exn_message render_cloud pdf_file job_description.

(** An installation without the NLTK resources: every lookup raises
    [LookupError], so the built-in stopwords and [str.split] are used. *)
Definition no_nltk_stopwords : option (list str) := None.
Definition no_punkt : str -> option (list str) := fun _ => None.

(** * Vocabulary of the statements

    Reference functions and predicates the properties are stated and
    proved with. *)

(** ** Job matcher and frequency analyzer *)

(** The list that [self.stop_words] is built from. *)
Definition stop_list (nltk_stopwords : option (list str)) : list str :=
  match nltk_stopwords with Some ws => ws | None => basic_stopwords end.

(** The stopword and length filter of the job matcher, on a list. *)
Definition significant_in (nltk_stopwords : option (list str)) (ws : list str)
    : list str :=
  List.filter
    (fun w => bool_decide (w ∉ stop_list nltk_stopwords) && (2 <? length w)) ws.

(** ** Text normalizer *)

(** Number of leading characters of [s] in the class [p]. *)
Fixpoint leading (p : ascii -> bool) (s : str) : nat :=
  match s with
  | c :: s' => if p c then S (leading p s') else 0
  | [] => 0
  end.

(** What the first substitution of [clean_text] does to a character. *)
Definition clean_char (c : ascii) : ascii :=
  if negb (clean_keep c) then " "%char else c.

(** What the second substitution does: a run of whitespace becomes one
    space. [in_run] tells that the previous character was whitespace. *)
Fixpoint collapse (in_run : bool) (s : str) : str :=
  match s with
  | [] => []
  | c :: s' =>
      if Char.isspace c
      then if in_run then collapse true s' else " "%char :: collapse true s'
      else c :: collapse false s'
  end.

(** The class [[a-z0-9+#. ]]. *)
Definition normal_char (c : ascii) : bool :=
  Char.lower_az c || Char.digit c || Char.oneof "+#. " c.

(** A normalized text: characters of [[a-z0-9+#. ]], no two spaces in a
    row, no space at either end. *)
Definition normalized (s : str) : Prop :=
  Forall (fun c => normal_char c = true) s
  /\ (forall pre post, s <> pre ++ " "%char :: " "%char :: post)
  /\ head s <> Some " "%char
  /\ last s <> Some " "%char.

(** No two whitespace characters in a row. *)
Fixpoint no_ws_pair (s : str) : Prop :=
  match s with
  | a :: t =>
      match t with
      | b :: _ => ~ (Char.isspace a = true /\ Char.isspace b = true)
      | [] => True
      end /\ no_ws_pair t
  | [] => True
  end.

(** The first character, if any, is not whitespace. *)
Definition starts_solid (s : str) : Prop :=
  match s with c :: _ => Char.isspace c = false | [] => True end.

(** Position of the first occurrence of a token. *)
Fixpoint first_index (w : str) (ts : list str) : option nat :=
  match ts with
  | [] => None
  | t :: ts' => if decide (t = w) then Some 0 else S <$> first_index w ts'
  end.

(** The distinct tokens in the order of their first occurrence. *)
Fixpoint first_seen (ts : list str) : list str :=
  match ts with
  | [] => []
  | t :: ts' => t :: filter (fun w => w <> t) (first_seen ts')
  end.

(** [x] comes before [y] in [l]. *)
Definition before {A} (x y : A) (l : list A) : Prop := [x; y] `sublist_of` l.

(** Counting the tokens [ts] into the counter [c]. *)
Definition count_all (ts : list str) (c : list (str * nat)) : list (str * nat) :=
  fold_left (fun c w => count_one w c) ts c.

(** The order of the result: the count does not increase. *)
Definition desc (x y : str * nat) : Prop := snd y <= snd x.

(** ** Patterns *)

(** [n] repetitions do not exceed the bound [hi]. *)
Definition within (hi : option nat) (n : nat) : Prop :=
  match hi with Some h => n <= h | None => True end.

(** [matches re l r g l' r' g']: from the position [(l, r)] with group
    content [g], the pattern can match up to the position [(l', r')],
    leaving the group content [g']. *)
Inductive matches : regex -> str -> str -> option str ->
                    str -> str -> option str -> Prop :=
| M_eps l r g : matches Eps l r g l r g
| M_chr p c l r g :
    p c = true -> matches (Chr p) l (c :: r) g (c :: l) r g
| M_wordb l r g :
    at_boundary l r = true -> matches WordB l r g l r g
| M_cat r1 r2 l r g l1 rr1 g1 l2 rr2 g2 :
    matches r1 l r g l1 rr1 g1 -> matches r2 l1 rr1 g1 l2 rr2 g2 ->
    matches (Cat r1 r2) l r g l2 rr2 g2
| M_opt_some re l r g l' r' g' :
    matches re l r g l' r' g' -> matches (Opt re) l r g l' r' g'
| M_opt_none re l r g : matches (Opt re) l r g l r g
| M_rep p lo hi cs l r g :
    Forall (fun c => p c = true) cs -> lo <= length cs ->
    within hi (length cs) ->
    matches (Rep p lo hi) l (cs ++ r) g (rev cs ++ l) r g
| M_grp re l r g l' r' g' :
    matches re l r g l' r' g' ->
    matches (Grp re) l r g l' r'
      (Some (rev (take (length l' - length l) l'))).

(** ** Field extractors and skill matcher *)

(** The shape [local@domain.tld]: [local] is one or more characters of
    [[A-Za-z0-9._%+-]], [domain] one or more of [[A-Za-z0-9.-]], [tld] two
    or more characters of the class [tld_char]. *)
Definition email_shape (tld_char : ascii -> bool) (m : str) : Prop :=
  exists local domain tld,
    m = local ++ "@"%char :: domain ++ "."%char :: tld
    /\ local <> [] /\ Forall (fun c => email_local c = true) local
    /\ domain <> [] /\ Forall (fun c => email_domain c = true) domain
    /\ 2 <= length tld /\ Forall (fun c => tld_char c = true) tld.

(** [m], between [pre] and [post], starts and ends at a word boundary. *)
Definition word_bounded (pre m post : str) : Prop :=
  at_boundary (rev pre) (m ++ post) = true
  /\ at_boundary (rev m ++ rev pre) post = true.

(** An occurrence of the shape in [text], delimited by word boundaries. *)
Definition email_at (tld_char : ascii -> bool) (text pre m post : str) : Prop :=
  text = pre ++ m ++ post /\ email_shape tld_char m /\ word_bounded pre m post.

(** [term] occurs in [text] as a whole word: the characters next to the
    occurrence, if any, are not word characters. *)
Definition whole_word_at (text pre term post : str) : Prop :=
  text = pre ++ term ++ post
  /\ first_is_word (rev pre) = false /\ first_is_word post = false.

(** ** Orchestrator *)

(** A document that cannot be opened, and a renderer that returns the
    text it is given as its image. *)
Definition broken_pdf : unit -> outcome str (list str) :=
  fun _ => Raises (lit "cannot open broken document").

Definition echo_cloud : str -> outcome str str := fun t => Returns t.

(** A renderer that raises, as the plotting library does when it cannot
    draw. *)
Definition boom_cloud : str -> outcome str str :=
  fun _ => Raises (lit "cannot render the word cloud").

(** ** Further vocabulary *)

(** A text of ASCII characters, U+0000 to U+007F. *)
Definition ascii_text (s : str) : Prop :=
  Forall (fun c => (Char.code c < 128)%N) s.

(** A character that the normalizer keeps, up to case: a letter, a
    digit, [+], [#] or [.]. *)
Definition content_char (c : ascii) : bool :=
  Char.letter c || Char.digit c || Char.oneof "+#." c.

(** The characters of a text other than whitespace. *)
Definition solid_chars (s : str) : str :=
  List.filter (fun c => negb (Char.isspace c)) s.

(** A non-empty string without whitespace, what [str.split] returns. *)
Definition token_like (w : str) : Prop :=
  w <> [] /\ Forall (fun c => Char.isspace c = false) w.

(** The last character, if any, is not whitespace. *)
Definition ends_solid (s : str) : Prop :=
  forall c, last s = Some c -> Char.isspace c = false.

(** [s] is empty or one character of the class [p]: what [p?] matches. *)
Definition opt_char (p : ascii -> bool) (s : str) : Prop :=
  s = [] \/ exists c, s = [c] /\ p c = true.

(** [s] is between [lo] and [hi] characters of the class [p]: what
    [p{lo,hi}] matches. *)
Definition char_run (p : ascii -> bool) (lo hi : nat) (s : str) : Prop :=
  lo <= length s <= hi /\ Forall (fun c => p c = true) s.

(** [s] is a string of [L1] followed by a string of [L2]. *)
Definition seq (L1 L2 : str -> Prop) (s : str) : Prop :=
  exists s1 s2, s = s1 ++ s2 /\ L1 s1 /\ L2 s2.

(** [\+?\d{1,3}[-.\s]?], the content of the group of the phone
    pattern. *)
Definition country_code : str -> Prop :=
  seq (opt_char (Char.exactly "+"))
    (seq (char_run Char.digit 1 3) (opt_char phone_sep)).

(** [\(?\d{3}\)?[-.\s]?\d{3}[-.\s]?\d{4}], the pattern after its group. *)
Definition phone_tail : str -> Prop :=
  seq (opt_char (Char.exactly "("))
    (seq (char_run Char.digit 3 3)
       (seq (opt_char (Char.exactly ")"))
          (seq (opt_char phone_sep)
             (seq (char_run Char.digit 3 3)
                (seq (opt_char phone_sep) (char_run Char.digit 4 4)))))).

(** [m] matches the phone pattern, its group holding [g]: the group
    took no part, or holds the country code in front of the rest. *)
Definition phone_shape (m : str) (g : option str) : Prop :=
  exists cc t,
    m = cc ++ t /\ phone_tail t
    /\ ((g = None /\ cc = []) \/ (g = Some cc /\ country_code cc)).

(** The pattern [re] matches the strings of [L], whatever is around
    them, and leaves the group as it is. *)
Definition lang (re : regex) (L : str -> Prop) : Prop :=
  forall l r g l' r' g',
    matches re l r g l' r' g' <->
    exists s, L s /\ r = s ++ r' /\ l' = rev s ++ l /\ g' = g.

(** Number of occurrences of a token. *)
Fixpoint occurrences (w : str) (ts : list str) : nat :=
  match ts with
  | [] => 0
  | t :: ts' => (if decide (t = w) then 1 else 0) + occurrences w ts'
  end.

(** An entry of a counter after [ts] more tokens were counted. *)
Definition add_occurrences (ts : list str) (e : str * nat) : str * nat :=
  (fst e, snd e + occurrences (fst e) ts).

(** * Properties *)

(** ** Job matcher *)

(** The coverage ratio of [m] tokens out of [n], as the source computes
    it. *)
Lemma coverage_bounds (m n : nat) :
  m <= n -> 0 < n ->
  (0 <= (Z.of_nat m # 1) / (Z.of_nat n # 1) * 100 <= 100)%Q.
Proof.
  intros Hmn Hn.
  assert (Hm : (0 <= Z.of_nat m <= Z.of_nat n)%Z) by lia.
  destruct (Z.of_nat n) as [|p|p] eqn:E; try lia.
  unfold Qle, Qdiv, Qmult, Qinv. cbn -[Z.mul Pos.mul]. lia.
Qed.

Lemma coverage_full (n : nat) :
  0 < n -> ((Z.of_nat n # 1) / (Z.of_nat n # 1) * 100 == 100)%Q.
Proof.
  intros Hn. destruct (Z.of_nat n) as [|p|p] eqn:E; try lia.
  unfold Qeq, Qdiv, Qmult, Qinv. cbn -[Z.mul Pos.mul]. lia.
Qed.

Lemma coverage_none (n : nat) :
  ((Z.of_nat 0 # 1) / (Z.of_nat n # 1) * 100 == 0)%Q.
Proof. unfold Qeq, Qdiv, Qmult. cbn. lia. Qed.

Section JobMatchFacts.

Variable sw : option (list str).
Variable wt : str -> option (list str).

Implicit Types resume job : str.

Lemma job_match_unfold resume job :
  calculate_job_match sw wt resume job =
    let rt := (token_sets sw wt resume job).1 in
    let jt := (token_sets sw wt resume job).2 in
    if decide (jt = ∅) then (0%Q, ∅, ∅)
    else (((Z.of_nat (size (rt ∩ jt)) # 1) / (Z.of_nat (size jt) # 1) * 100)%Q,
          rt ∩ jt, jt ∖ rt).
Proof.
  unfold calculate_job_match.
  destruct (token_sets sw wt resume job) as [rt jt]. reflexivity.
Qed.

Lemma job_match_degenerate resume job :
  (token_sets sw wt resume job).2 = ∅ ->
  calculate_job_match sw wt resume job = (0%Q, ∅, ∅).
Proof.
  intros E. rewrite job_match_unfold. cbn zeta.
  destruct (decide _) as [_|n]; [reflexivity | contradiction].
Qed.

Lemma job_match_regular resume job :
  (token_sets sw wt resume job).2 <> ∅ ->
  calculate_job_match sw wt resume job =
    (((Z.of_nat (size ((token_sets sw wt resume job).1 ∩ (token_sets sw wt resume job).2)) # 1)
        / (Z.of_nat (size (token_sets sw wt resume job).2) # 1) * 100)%Q,
     (token_sets sw wt resume job).1 ∩ (token_sets sw wt resume job).2,
     (token_sets sw wt resume job).2 ∖ (token_sets sw wt resume job).1).
Proof.
  intros E. rewrite job_match_unfold. cbn zeta.
  destruct (decide _) as [e|_]; [contradiction | reflexivity].
Qed.

(** C4. The matching and the missing keywords partition the filtered
    job-description token set: their union is that set and they have no
    element in common. *)
Theorem job_match_partition resume job :
  let '(_, matching, missing) := calculate_job_match sw wt resume job in
  matching ∪ missing = (token_sets sw wt resume job).2
  /\ matching ∩ missing = ∅.
Proof.
  rewrite job_match_unfold. cbn zeta.
  destruct (token_sets sw wt resume job) as [rt jt]. cbn [fst snd].
  destruct (decide (jt = ∅)) as [->|Hne].
  - split; set_solver.
  - split.
    + apply set_eq. intros x. rewrite elem_of_union, elem_of_intersection,
        elem_of_difference. destruct (decide (x ∈ rt)); tauto.
    + set_solver.
Qed.

(** C5, as amended. The percentage lies between 0 and 100; it is 100
    when the job description has a significant token and each one is
    among the resume's; a job description without significant token
    gives [(0, set(), set())]; an empty overlap gives 0. *)
Theorem job_match_percentage resume job :
  let rt := (token_sets sw wt resume job).1 in
  let jt := (token_sets sw wt resume job).2 in
  let p := (calculate_job_match sw wt resume job).1.1 in
  (0 <= p <= 100)%Q
  /\ (jt <> ∅ -> jt ⊆ rt -> (p == 100)%Q)
  /\ (jt = ∅ -> calculate_job_match sw wt resume job = (0%Q, ∅, ∅))
  /\ (rt ∩ jt = ∅ -> (p == 0)%Q).
Proof.
  cbn zeta. split; [|split; [|split]].
  - destruct (decide ((token_sets sw wt resume job).2 = ∅)) as [E|E].
    + rewrite (job_match_degenerate _ _ E). cbn. split; discriminate.
    + rewrite (job_match_regular _ _ E). cbn [fst].
      apply coverage_bounds.
      * apply subseteq_size. set_solver.
      * destruct (Nat.eq_dec (size (token_sets sw wt resume job).2) 0) as [Z|Z];
          [apply size_empty_inv in Z; apply leibniz_equiv in Z; contradiction | lia].
  - intros E Hsub. rewrite (job_match_regular _ _ E). cbn [fst].
    replace ((token_sets sw wt resume job).1 ∩ (token_sets sw wt resume job).2)
      with (token_sets sw wt resume job).2 by set_solver.
    apply coverage_full.
    destruct (Nat.eq_dec (size (token_sets sw wt resume job).2) 0) as [Z|Z];
      [apply size_empty_inv in Z; apply leibniz_equiv in Z; contradiction | lia].
  - apply job_match_degenerate.
  - intros Hdisj.
    destruct (decide ((token_sets sw wt resume job).2 = ∅)) as [E|E].
    + rewrite (job_match_degenerate _ _ E). reflexivity.
    + rewrite (job_match_regular _ _ E). cbn [fst]. rewrite Hdisj.
      rewrite size_empty. apply coverage_none.
Qed.

(** C10. A resume without significant token against a job description
    with some: the percentage is 0, nothing matches and the whole
    filtered job-description set is missing. *)
Theorem job_match_empty_resume resume job :
  (token_sets sw wt resume job).1 = ∅ ->
  (token_sets sw wt resume job).2 <> ∅ ->
  exists p, calculate_job_match sw wt resume job
            = (p, ∅, (token_sets sw wt resume job).2)
            /\ (p == 0)%Q.
Proof.
  intros Hr Hj. rewrite (job_match_regular _ _ Hj). rewrite Hr.
  assert (E1 : ∅ ∩ (token_sets sw wt resume job).2 = (∅ : gset str)) by set_solver.
  assert (E2 : (token_sets sw wt resume job).2 ∖ ∅ = (token_sets sw wt resume job).2)
    by set_solver.
  rewrite E1, E2, size_empty. eexists. split; [reflexivity|].
  apply coverage_none.
Qed.

End JobMatchFacts.

(** *** Evaluation on concrete texts

    The stopword set is a [set(...)] of a list in both branches of
    [__init__], so the filter can be run on lists. *)

Lemma stop_words_list sw : stop_words sw = list_to_set (stop_list sw).
Proof. destruct sw; reflexivity. Qed.

Lemma filter_significant sw (ws : list str) :
  filter (significant sw) (list_to_set ws : gset str)
  = list_to_set (significant_in sw ws).
Proof.
  apply set_eq. intros w. unfold significant_in, significant.
  rewrite elem_of_filter, !elem_of_list_to_set, stop_words_list,
    elem_of_list_to_set.
  split.
  - intros [[Hs Hl] Hin]. apply list_elem_of_In, filter_In.
    split; [by apply list_elem_of_In|].
    apply andb_true_iff. split; [by apply bool_decide_eq_true | by apply Nat.ltb_lt].
  - intros Hin. apply list_elem_of_In, filter_In in Hin as [Hin Hk].
    apply andb_true_iff in Hk as [Hs Hl].
    apply bool_decide_eq_true in Hs. apply Nat.ltb_lt in Hl.
    split; [split; assumption | by apply list_elem_of_In].
Qed.

Lemma token_sets_no_punkt sw resume job :
  token_sets sw no_punkt resume job
  = (list_to_set (significant_in sw (split (clean_text resume))),
     list_to_set (significant_in sw (split (clean_text job)))).
Proof.
  unfold token_sets, no_punkt. rewrite !filter_significant. reflexivity.
Qed.

Lemma resume_python_tokens :
  significant_in no_nltk_stopwords (split (clean_text (lit "python")))
  = [lit "python"].
Proof. vm_compute. reflexivity. Qed.

Lemma job_stopwords_only_tokens :
  significant_in no_nltk_stopwords (split (clean_text (lit "to be or to do")))
  = [].
Proof. vm_compute. reflexivity. Qed.

(** C5, as stated, fails on a job description made of stopwords and
    short words: each of its significant tokens, there being none, is in
    the resume, and the percentage is 0. *)
Lemma job_match_full_cover_counterexample :
  let resume := lit "python" in
  let job := lit "to be or to do" in
  (token_sets no_nltk_stopwords no_punkt resume job).2
    ⊆ (token_sets no_nltk_stopwords no_punkt resume job).1
  /\ ~ ((calculate_job_match no_nltk_stopwords no_punkt resume job).1.1 == 100)%Q.
Proof.
  cbn zeta.
  assert (E : (token_sets no_nltk_stopwords no_punkt (lit "python")
                 (lit "to be or to do")).2 = ∅).
  { rewrite token_sets_no_punkt. cbn [snd].
    rewrite job_stopwords_only_tokens. reflexivity. }
  split.
  - rewrite E. apply empty_subseteq.
  - rewrite (job_match_degenerate _ _ _ _ E). cbn. discriminate.
Qed.

(** Run the tokenizer fallback and the filter on the concrete texts of
    the goal. *)
Ltac run_tokens :=
  rewrite ?token_sets_no_punkt; cbn [fst snd];
  repeat match goal with
    | |- context [significant_in ?sw (split ?t)] =>
        let v := eval vm_compute in (significant_in sw (split t)) in
        replace (significant_in sw (split t)) with v
          by (vm_compute; reflexivity)
    end.

Lemma job_match_percentage_witness :
  ((calculate_job_match no_nltk_stopwords no_punkt
      (lit "Python and React developer") (lit "React, Python")).1.1 == 100)%Q
  /\ calculate_job_match no_nltk_stopwords no_punkt
       (lit "python") (lit "to be or to do") = (0%Q, ∅, ∅)
  /\ ((calculate_job_match no_nltk_stopwords no_punkt
         (lit "java") (lit "python")).1.1 == 0)%Q.
Proof.
  split; [|split].
  - apply (job_match_percentage no_nltk_stopwords no_punkt
             (lit "Python and React developer") (lit "React, Python")).
    + run_tokens. set_solver.
    + run_tokens. set_solver.
  - apply (job_match_percentage no_nltk_stopwords no_punkt
             (lit "python") (lit "to be or to do")).
    run_tokens. reflexivity.
  - apply (job_match_percentage no_nltk_stopwords no_punkt
             (lit "java") (lit "python")).
    run_tokens. set_solver.
Defined.

Lemma job_match_empty_resume_witness :
  (token_sets no_nltk_stopwords no_punkt (lit "") (lit "Python developer")).1 = ∅
  /\ (token_sets no_nltk_stopwords no_punkt (lit "") (lit "Python developer")).2 <> ∅
  /\ exists p,
      calculate_job_match no_nltk_stopwords no_punkt (lit "") (lit "Python developer")
      = (p, ∅, {[ lit "python"; lit "developer" ]})
      /\ (p == 0)%Q.
Proof.
  assert (H1 : (token_sets no_nltk_stopwords no_punkt (lit "")
                  (lit "Python developer")).1 = ∅)
    by (run_tokens; reflexivity).
  assert (H2 : (token_sets no_nltk_stopwords no_punkt (lit "")
                  (lit "Python developer")).2 <> ∅)
    by (run_tokens; set_solver).
  split; [exact H1 | split; [exact H2|]].
  destruct (job_match_empty_resume no_nltk_stopwords no_punkt
              (lit "") (lit "Python developer") H1 H2) as [p [E Hp]].
  exists p. split; [|exact Hp]. rewrite E. run_tokens.
  replace (list_to_set [lit "python"; lit "developer"] : gset str)
    with ({[ lit "python"; lit "developer" ]} : gset str) by set_solver.
  reflexivity.
Defined.

(** ** Text normalizer *)

Ltac each_char c :=
  destruct c as [[|] [|] [|] [|] [|] [|] [|] [|]]; vm_compute;
  try reflexivity; try discriminate; try tauto; auto.

Lemma kept_lower_normal c :
  clean_keep (Char.lower c) = true ->
  Char.isspace (Char.lower c) = false ->
  normal_char (Char.lower c) = true.
Proof. each_char c. Qed.

Lemma normal_isspace c :
  normal_char c = true -> Char.isspace c = true -> c = " "%char.
Proof. each_char c. Qed.

Lemma normal_lower c : normal_char c = true -> Char.lower c = c.
Proof. each_char c. Qed.

Lemma normal_keep c : normal_char c = true -> clean_keep c = true.
Proof. each_char c. Qed.

Lemma space_isspace : Char.isspace " " = true.
Proof. reflexivity. Qed.

(** *** The matcher on a greedy repetition *)

Lemma rep_unbounded {A} p (f : str -> str -> option str -> A) :
  forall r lo l g,
  rep p lo None l r g (fun l' r' g' => Some (f l' r' g'))
  = if lo <=? leading p r
    then Some (f (rev (take (leading p r) r) ++ l) (drop (leading p r) r) g)
    else None.
Proof.
  induction r as [|c r IH]; intros lo l g; cbn [rep leading].
  - destruct lo; reflexivity.
  - destruct (p c) eqn:Hc; cbn [andb more_allowed dec_bound].
    + rewrite IH. destruct lo as [|lo]; cbn [pred Nat.leb].
      * cbn [take drop rev]. rewrite <- app_assoc. reflexivity.
      * destruct (lo <=? leading p r); [|reflexivity].
        cbn [take drop rev]. rewrite <- app_assoc. reflexivity.
    + destruct lo; reflexivity.
Qed.

Lemma matched_text (m l : str) :
  rev (take (length (rev m ++ l) - length l) (rev m ++ l)) = m.
Proof.
  rewrite length_app, Nat.add_sub, take_app_length. apply rev_involutive.
Qed.

Lemma match_at_rep p lo l r :
  match_at (Rep p lo None) l r
  = if lo <=? leading p r then Some (take (leading p r) r, None) else None.
Proof.
  unfold match_at. cbn [run].
  rewrite (rep_unbounded p
             (fun l' (_ : str) g => (rev (take (length l' - length l) l'), g))).
  destruct (lo <=? leading p r); [|reflexivity].
  rewrite matched_text. reflexivity.
Qed.

Lemma match_at_chr q l r :
  match_at (Chr q) l r
  = match r with
    | c :: _ => if q c then Some ([c], None) else None
    | [] => None
    end.
Proof.
  unfold match_at. cbn [run]. destruct r as [|c r]; [reflexivity|].
  destruct (q c); [|reflexivity].
  cbn [length]. replace (S (length l) - length l) with 1 by lia. reflexivity.
Qed.

(** *** The two substitutions *)

Lemma sub_from_chr q x : forall r l,
  sub_from (Chr q) [x] 0 l r = map (fun c => if q c then x else c) r.
Proof.
  induction r as [|c r IH]; intros l; [reflexivity|].
  cbn [sub_from map]. rewrite match_at_chr.
  destruct (q c); cbn; rewrite IH; reflexivity.
Qed.

Lemma sub_from_spaces : forall r l,
  sub_from (Rep Char.isspace 1 None) (lit " ") (leading Char.isspace r) l r
    = collapse true r
  /\ sub_from (Rep Char.isspace 1 None) (lit " ") 0 l r = collapse false r.
Proof.
  induction r as [|c r IH]; intros l; [split; reflexivity|].
  assert (H0 : sub_from (Rep Char.isspace 1 None) (lit " ") 0 l (c :: r)
               = collapse false (c :: r)).
  { cbn [sub_from collapse]. rewrite match_at_rep. cbn [leading].
    destruct (Char.isspace c) eqn:Hc.
    - cbn [Nat.leb take length pred]. rewrite length_take_le.
      + cbn [lit list_ascii_of_string app]. f_equal. apply IH.
      + clear. induction r as [|d r IH]; cbn; [lia|].
        destruct (Char.isspace d); cbn; lia.
    - cbn [Nat.leb]. f_equal. apply IH. }
  split; [|exact H0].
  cbn [leading]. destruct (Char.isspace c) eqn:Hc.
  - cbn [sub_from collapse]. rewrite Hc. apply IH.
  - rewrite H0. cbn [collapse]. rewrite Hc. reflexivity.
Qed.

Lemma clean_text_eq s :
  clean_text s = strip (collapse false (map clean_char (lower s))).
Proof.
  unfold clean_text, Re.sub. cbn zeta.
  rewrite (proj2 (sub_from_spaces _ _)).
  change (lit " ") with [" "%char]. rewrite sub_from_chr. reflexivity.
Qed.

(** *** Whitespace runs *)

Lemma collapse_Forall (Q : ascii -> Prop) s :
  Q " "%char ->
  Forall (fun c => Char.isspace c = false -> Q c) s ->
  forall b, Forall Q (collapse b s).
Proof.
  intros Hsp Hs. induction Hs as [|c s Hc Hs IH]; intros b; cbn [collapse].
  - constructor.
  - destruct (Char.isspace c) eqn:E.
    + destruct b; [apply IH | constructor; [exact Hsp | apply IH]].
    + constructor; [apply Hc; reflexivity | apply IH].
Qed.

Lemma collapse_runs s :
  no_ws_pair (collapse false s)
  /\ no_ws_pair (collapse true s)
  /\ starts_solid (collapse true s).
Proof.
  induction s as [|c s (IHf & IHt & IHs)]; cbn [collapse].
  - cbn. tauto.
  - destruct (Char.isspace c) eqn:E.
    + split; [|split; assumption].
      cbn [no_ws_pair]. split; [|exact IHt].
      destruct (collapse true s) as [|d t]; [exact I|].
      cbn in IHs. intros [_ Hd]. congruence.
    + assert (H : no_ws_pair (c :: collapse false s)).
      { cbn [no_ws_pair]. split; [|exact IHf].
        destruct (collapse false s); [exact I|]. intros [Hc _]. congruence. }
      split; [exact H | split; [exact H | exact E]].
Qed.

Lemma no_ws_pair_app_r p s : no_ws_pair (p ++ s) -> no_ws_pair s.
Proof.
  induction p as [|a p IH]; cbn [app]; [tauto|].
  intros [_ H]. apply IH, H.
Qed.

Lemma no_ws_pair_app_l s q : no_ws_pair (s ++ q) -> no_ws_pair s.
Proof.
  induction s as [|a s IH]; [intros; exact I|].
  cbn [app no_ws_pair]. intros [Ha Hs]. split; [|apply IH, Hs].
  destruct s as [|b s]; [exact I | exact Ha].
Qed.

Lemma no_ws_pair_spaces s pre post :
  no_ws_pair s -> s <> pre ++ " "%char :: " "%char :: post.
Proof.
  intros Hs ->. apply no_ws_pair_app_r in Hs. cbn in Hs.
  destruct Hs as [Hs _]. apply Hs. split; reflexivity.
Qed.

(** *** [strip] *)

Lemma lstrip_suffix s : exists p, s = p ++ lstrip s.
Proof.
  induction s as [|c s [p IH]]; [exists []; reflexivity|].
  cbn [lstrip]. destruct (Char.isspace c).
  - exists (c :: p). cbn. f_equal. exact IH.
  - exists []. reflexivity.
Qed.

Lemma lstrip_solid s : starts_solid (lstrip s).
Proof.
  induction s as [|c s IH]; [exact I|].
  cbn [lstrip]. destruct (Char.isspace c) eqn:E; [exact IH | exact E].
Qed.

Lemma lstrip_id s : starts_solid s -> lstrip s = s.
Proof. destruct s as [|c s]; cbn; [reflexivity|]. intros ->. reflexivity. Qed.

Lemma rstrip_prefix s : exists q, s = rstrip s ++ q.
Proof.
  destruct (lstrip_suffix (rev s)) as [p E]. exists (rev p).
  unfold rstrip. rewrite <- rev_app_distr, <- E. symmetry. apply rev_involutive.
Qed.

Lemma last_rev (s : str) : last (rev s) = head s.
Proof. rewrite (rev_alt s). apply (last_reverse s). Qed.

Lemma head_rev (s : str) : head (rev s) = last s.
Proof. rewrite (rev_alt s). apply (head_reverse s). Qed.

Lemma strip_infix s : exists p q, s = p ++ strip s ++ q.
Proof.
  destruct (lstrip_suffix s) as [p Hp].
  destruct (rstrip_prefix (lstrip s)) as [q Hq].
  exists p, q. unfold strip. rewrite <- Hq. exact Hp.
Qed.

Lemma strip_solid_start s : starts_solid (strip s).
Proof.
  unfold strip. pose proof (lstrip_solid s) as H.
  destruct (rstrip_prefix (lstrip s)) as [q Hq].
  destruct (rstrip (lstrip s)) as [|c t]; [exact I|].
  rewrite Hq in H. exact H.
Qed.

Lemma strip_solid_end s : starts_solid (rev (strip s)).
Proof.
  unfold strip, rstrip. rewrite rev_involutive. apply lstrip_solid.
Qed.

Lemma solid_head s : starts_solid s -> head s <> Some " "%char.
Proof. destruct s as [|c s]; cbn; [discriminate|]. intros H [= ->]. discriminate. Qed.

(** C8. The output of the normalizer has characters of [[a-z0-9+#. ]]
    only, no two consecutive spaces, and no space at its start or its
    end. *)
Theorem clean_text_normalized (s : str) : normalized (clean_text s).
Proof.
  rewrite clean_text_eq.
  set (w := collapse false (map clean_char (lower s))).
  assert (Hw : Forall (fun c => normal_char c = true) w).
  { apply collapse_Forall; [reflexivity|].
    unfold lower. rewrite map_map. apply Forall_map, Forall_forall.
    intros c _. unfold clean_char.
    destruct (clean_keep (Char.lower c)) eqn:K; cbn [negb].
    - apply kept_lower_normal. exact K.
    - discriminate. }
  assert (Hp : no_ws_pair w) by apply collapse_runs.
  destruct (strip_infix w) as (p & q & E).
  repeat split.
  - rewrite E in Hw. apply Forall_app in Hw as [_ Hw].
    apply Forall_app in Hw as [Hw _]. exact Hw.
  - intros pre post. apply no_ws_pair_spaces.
    rewrite E in Hp. apply no_ws_pair_app_r, no_ws_pair_app_l in Hp. exact Hp.
  - apply solid_head, strip_solid_start.
  - rewrite <- head_rev. apply solid_head, strip_solid_end.
Qed.

(** *** Normalized texts are fixed *)

Lemma normalized_no_ws_pair s :
  Forall (fun c => normal_char c = true) s ->
  (forall pre post, s <> pre ++ " "%char :: " "%char :: post) ->
  no_ws_pair s.
Proof.
  induction 1 as [|a t Ha Ht IH]; intros Hs; [exact I|].
  cbn [no_ws_pair]. split.
  - destruct t as [|b t']; [exact I|]. intros [Ea Eb].
    apply (normal_isspace _ Ha) in Ea. inversion Ht as [|? ? Hb _]; subst.
    apply (normal_isspace _ Hb) in Eb. subst. apply (Hs [] t'). reflexivity.
  - apply IH. intros pre post ->. apply (Hs (a :: pre) post). reflexivity.
Qed.

Lemma collapse_fixed s :
  Forall (fun c => normal_char c = true) s -> no_ws_pair s ->
  collapse false s = s /\ (starts_solid s -> collapse true s = s).
Proof.
  induction 1 as [|c t Hc Ht IH]; intros Hp; [split; reflexivity|].
  cbn [no_ws_pair] in Hp. destruct Hp as [Hct Hp].
  destruct (IH Hp) as [IHf IHt]. cbn [collapse starts_solid].
  destruct (Char.isspace c) eqn:E.
  - split; [|discriminate].
    rewrite (normal_isspace _ Hc E). f_equal. apply IHt.
    destruct t as [|d t']; [exact I|]. cbn.
    destruct (Char.isspace d) eqn:Ed; [|reflexivity].
    exfalso. apply Hct. split; reflexivity.
  - split; [|intros _]; f_equal; exact IHf.
Qed.

Lemma normal_solid s :
  Forall (fun c => normal_char c = true) s ->
  head s <> Some " "%char -> starts_solid s.
Proof.
  intros Hs Hh. destruct s as [|c t]; [exact I|]. cbn in *.
  inversion Hs as [|? ? Hc _]; subst.
  destruct (Char.isspace c) eqn:E; [|reflexivity].
  exfalso. apply Hh. f_equal. apply normal_isspace; assumption.
Qed.

Lemma clean_text_fixed s : normalized s -> clean_text s = s.
Proof.
  intros (Hc & Hp & Hh & Hl). rewrite clean_text_eq.
  assert (E1 : lower s = s).
  { unfold lower. clear -Hc. induction Hc as [|c t H _ IH]; [reflexivity|].
    cbn [map]. rewrite IH, (normal_lower _ H). reflexivity. }
  assert (E2 : map clean_char s = s).
  { clear -Hc. induction Hc as [|c t H _ IH]; [reflexivity|].
    cbn [map]. rewrite IH. unfold clean_char. rewrite (normal_keep _ H).
    reflexivity. }
  rewrite E1, E2.
  rewrite (proj1 (collapse_fixed s Hc (normalized_no_ws_pair s Hc Hp))).
  unfold strip, rstrip.
  rewrite (lstrip_id s) by (apply normal_solid; assumption).
  rewrite lstrip_id; [apply rev_involutive|].
  apply normal_solid.
  - apply Forall_rev. exact Hc.
  - rewrite head_rev. exact Hl.
Qed.

(** The text before it is stripped and collapsed may be any: the
    result of the three steps is normalized. *)
Lemma cleaned_normalized (s : str) :
  normalized (strip (collapse false (map clean_char (lower s)))).
Proof.
  set (w := collapse false (map clean_char (lower s))).
  assert (Hw : Forall (fun c => normal_char c = true) w).
  { apply collapse_Forall; [reflexivity|].
    unfold lower. rewrite map_map. apply Forall_map, Forall_forall.
    intros c _. unfold clean_char.
    destruct (clean_keep (Char.lower c)) eqn:K; cbn [negb];
      [apply kept_lower_normal; exact K | discriminate]. }
  assert (Hp : no_ws_pair w) by apply collapse_runs.
  destruct (strip_infix w) as (p & q & E).
  repeat split.
  - rewrite E in Hw. apply Forall_app in Hw as [_ Hw].
    apply Forall_app in Hw as [Hw _]. exact Hw.
  - intros pre post. apply no_ws_pair_spaces.
    rewrite E in Hp. apply no_ws_pair_app_r, no_ws_pair_app_l in Hp. exact Hp.
  - apply solid_head, strip_solid_start.
  - rewrite <- head_rev. apply solid_head, strip_solid_end.
Qed.

(** C7. The normalizer is idempotent. *)
Theorem clean_text_idempotent (s : str) :
  clean_text (clean_text s) = clean_text s.
Proof.
  apply clean_text_fixed. rewrite clean_text_eq. apply cleaned_normalized.
Qed.

(** ** Frequency analyzer *)

Lemma before_lookup {A} (l : list A) i j x y :
  i < j -> l !! i = Some x -> l !! j = Some y -> before x y l.
Proof.
  intros Hij Hi Hj. unfold before.
  rewrite <- (take_drop_middle l i x Hi).
  apply sublist_inserts_l, sublist_skip, singleton_sublist_l.
  apply list_elem_of_lookup. exists (j - S i).
  rewrite lookup_drop. rewrite <- Hj. f_equal. lia.
Qed.

Lemma before_sublist {A} (x y : A) l k :
  before x y l -> l `sublist_of` k -> before x y k.
Proof. unfold before. intros H1 H2. etransitivity; eassumption. Qed.

Lemma before_elem_of {A} (x y : A) l : before x y l -> x ∈ l /\ y ∈ l.
Proof.
  intros H. split; eapply elem_of_sublist; try exact H; set_solver.
Qed.

(** *** The counter *)

Lemma count_one_keys w c :
  c.*1 ++ filter (fun k => k ∉ c.*1) [w] = (count_one w c).*1.
Proof.
  induction c as [|[k n] c IH]; cbn [count_one fmap list_fmap fst app].
  - rewrite filter_cons_True by set_solver. reflexivity.
  - destruct (decide (k = w)) as [->|Hne]; cbn [fmap list_fmap fst].
    + rewrite filter_cons_False by set_solver.
      rewrite filter_nil, app_nil_r. reflexivity.
    + f_equal. rewrite <- IH. f_equal.
      destruct (decide (w ∈ c.*1)) as [Hin|Hin].
      * rewrite !filter_cons_False by set_solver. reflexivity.
      * rewrite !filter_cons_True by set_solver. reflexivity.
Qed.

Lemma count_all_keys ts : forall c,
  (count_all ts c).*1 = c.*1 ++ filter (fun k => k ∉ c.*1) (first_seen ts).
Proof.
  induction ts as [|t ts IH]; intros c; cbn [count_all fold_left first_seen].
  - rewrite filter_nil, app_nil_r. reflexivity.
  - fold (count_all ts (count_one t c)). rewrite IH.
    pose proof (count_one_keys t c) as Hk.
    destruct (decide (t ∈ c.*1)) as [Hin|Hin].
    + rewrite filter_cons_False in Hk by set_solver.
      rewrite filter_nil, app_nil_r in Hk. rewrite <- Hk.
      rewrite filter_cons_False by set_solver. f_equal.
      rewrite list_filter_filter. apply list_filter_iff. intros k. split.
      * intros Hn. split; [exact Hn | intros ->; contradiction].
      * intros [Hn _]. exact Hn.
    + rewrite filter_cons_True in Hk by set_solver.
      rewrite filter_nil in Hk. rewrite <- Hk.
      rewrite filter_cons_True by set_solver.
      rewrite <- app_assoc. cbn [app]. do 2 f_equal.
      rewrite list_filter_filter. apply list_filter_iff. intros k.
      rewrite elem_of_app, list_elem_of_singleton. tauto.
Qed.

Lemma Counter_keys ts : (Counter ts).*1 = first_seen ts.
Proof.
  change (Counter ts) with (count_all ts []). rewrite count_all_keys.
  cbn [fmap list_fmap app].
  induction (first_seen ts) as [|w ws IH]; [reflexivity|].
  rewrite filter_cons_True by apply not_elem_of_nil. f_equal. exact IH.
Qed.

Lemma first_seen_elem_of w ts : w ∈ first_seen ts <-> w ∈ ts.
Proof.
  induction ts as [|t ts IH]; cbn [first_seen]; [reflexivity|].
  rewrite !elem_of_cons, list_elem_of_filter, IH.
  destruct (decide (w = t)); tauto.
Qed.

Lemma first_seen_NoDup ts : NoDup (first_seen ts).
Proof.
  induction ts as [|t ts IH]; cbn [first_seen]; constructor.
  - rewrite list_elem_of_filter. tauto.
  - apply (sublist_NoDup _ _ IH), sublist_filter.
Qed.

Lemma first_index_elem_of w ts : w ∈ ts -> is_Some (first_index w ts).
Proof.
  induction ts as [|t ts IH]; [intros H; inversion H|].
  cbn [first_index]. destruct (decide (t = w)); [eauto|].
  intros [->|H]%elem_of_cons; [congruence|].
  destruct (IH H) as [a ->]. eauto.
Qed.

(** The order of the keys of a counter is the order of first
    occurrence. *)
Lemma first_seen_order w1 w2 ts :
  before w1 w2 (first_seen ts) ->
  exists a b, first_index w1 ts = Some a /\ first_index w2 ts = Some b /\ a < b.
Proof.
  unfold before. induction ts as [|t ts IH]; cbn [first_seen first_index].
  - intros H. apply sublist_nil_r in H. discriminate.
  - intros [H | (l' & [= -> <-] & H)]%sublist_cons_r.
    + assert (Hs : [w1; w2] `sublist_of` first_seen ts)
        by (etransitivity; [exact H | apply sublist_filter]).
      destruct (IH Hs) as (a & b & -> & -> & Hab).
      pose proof (sublist_subseteq _ _ H) as Hin.
      assert (H1 : w1 <> t)
        by (specialize (Hin w1); rewrite list_elem_of_filter in Hin;
            apply Hin; set_solver).
      assert (H2 : w2 <> t)
        by (specialize (Hin w2); rewrite list_elem_of_filter in Hin;
            apply Hin; set_solver).
      rewrite !decide_False by congruence.
      exists (S a), (S b). cbn. repeat split; lia.
    + apply singleton_sublist_l, list_elem_of_filter in H as [Hne Hin].
      rewrite decide_True by reflexivity. rewrite decide_False by congruence.
      apply first_seen_elem_of, first_index_elem_of in Hin as [b ->].
      exists 0, (S b). cbn. repeat split; lia.
Qed.

(** Filtering the tokens keeps the order of first occurrences. *)
Lemma first_index_filter (f : str -> bool) w1 w2 ts a b :
  first_index w1 (List.filter f ts) = Some a ->
  first_index w2 (List.filter f ts) = Some b ->
  a < b ->
  exists a' b', first_index w1 ts = Some a' /\ first_index w2 ts = Some b'
                /\ a' < b'.
Proof.
  revert a b. induction ts as [|t ts IH]; intros a b; cbn [List.filter first_index].
  - discriminate.
  - assert (Hf : forall w c, first_index w (List.filter f ts) = Some c -> f w = true).
    { intros w c Hw. assert (Hin : w ∈ List.filter f ts).
      { clear -Hw. revert c Hw. induction (List.filter f ts) as [|u us IHu];
          cbn [first_index]; [discriminate|]. intros c.
        destruct (decide (u = w)) as [->|]; [set_solver|].
        destruct (first_index w us) eqn:E; [|discriminate].
        intros _. apply elem_of_cons. right. eapply IHu. reflexivity. }
      apply list_elem_of_In, filter_In in Hin. tauto. }
    destruct (f t) eqn:Ft; cbn [first_index].
    + destruct (decide (t = w1)) as [E1|N1], (decide (t = w2)) as [E2|N2].
      * intros [= <-] [= <-]. lia.
      * intros [= <-]. destruct (first_index w2 (List.filter f ts)) as [b0|] eqn:E;
          [|discriminate]. intros _ _.
        assert (Hin : is_Some (first_index w2 ts)).
        { apply first_index_elem_of. clear -E. revert b0 E.
          induction ts as [|u us IHu]; cbn [List.filter]; [discriminate|].
          destruct (f u); cbn [first_index].
          - destruct (decide (u = w2)) as [->|]; [set_solver|].
            destruct (first_index w2 (List.filter f us)) eqn:E'; [|discriminate].
            intros _ _. apply elem_of_cons. right. eapply IHu. reflexivity.
          - intros b0 E. apply elem_of_cons. right. eapply IHu. exact E. }
        destruct Hin as [b' ->]. exists 0, (S b'). cbn. repeat split; lia.
      * destruct (first_index w1 (List.filter f ts)); [|discriminate].
        intros [= <-] [= <-]. lia.
      * destruct (first_index w1 (List.filter f ts)) as [a0|] eqn:E1; [|discriminate].
        destruct (first_index w2 (List.filter f ts)) as [b0|] eqn:E2; [|discriminate].
        intros [= <-] [= <-] Hab.
        destruct (IH a0 b0 eq_refl eq_refl ltac:(lia)) as (a' & b' & -> & -> & H').
        exists (S a'), (S b'). cbn. repeat split; lia.
    + intros H1 H2 Hab.
      assert (N1 : t <> w1) by (intros ->; rewrite (Hf _ _ H1) in Ft; discriminate).
      assert (N2 : t <> w2) by (intros ->; rewrite (Hf _ _ H2) in Ft; discriminate).
      rewrite !decide_False by assumption.
      destruct (IH a b H1 H2 Hab) as (a' & b' & -> & -> & H').
      exists (S a'), (S b'). cbn. repeat split; lia.
Qed.

(** *** The stable sort *)

Lemma insert_desc_split a s :
  exists s1 s2, s = s1 ++ s2 /\ insert_desc a s = s1 ++ a :: s2
                /\ Forall (fun y => snd a < snd y) s1.
Proof.
  induction s as [|y s (s1 & s2 & E & Ei & Hs)]; cbn [insert_desc].
  - exists [], []. repeat split. constructor.
  - destruct (snd a <? snd y) eqn:L.
    + exists (y :: s1), s2. cbn [app]. rewrite Ei, <- E.
      repeat split. constructor; [apply Nat.ltb_lt, L | exact Hs].
    + exists [], (y :: s). repeat split. constructor.
Qed.

Lemma insert_desc_perm a s : insert_desc a s ≡ₚ a :: s.
Proof.
  destruct (insert_desc_split a s) as (s1 & s2 & -> & -> & _).
  symmetry. apply Permutation_middle.
Qed.

Lemma sorted_desc_perm l : sorted_desc l ≡ₚ l.
Proof.
  induction l as [|a l IH]; [reflexivity|].
  cbn [sorted_desc fold_right]. fold (sorted_desc l).
  rewrite insert_desc_perm, IH. reflexivity.
Qed.

Lemma insert_desc_sorted a s :
  StronglySorted desc s -> StronglySorted desc (insert_desc a s).
Proof.
  induction 1 as [|y s Hs IH Hy]; cbn [insert_desc].
  - repeat constructor.
  - destruct (snd a <? snd y) eqn:L.
    + constructor; [exact IH|].
      rewrite insert_desc_perm. constructor; [|exact Hy].
      apply Nat.ltb_lt in L. unfold desc. lia.
    + apply Nat.ltb_ge in L. constructor; [constructor; assumption|].
      constructor; [exact L|].
      eapply Forall_impl; [exact Hy|]. unfold desc. intros z Hz. cbn in *. lia.
Qed.

Lemma sorted_desc_sorted l : StronglySorted desc (sorted_desc l).
Proof.
  induction l as [|a l IH]; [constructor|].
  cbn [sorted_desc fold_right]. apply insert_desc_sorted, IH.
Qed.

Lemma sorted_before x y l : StronglySorted desc l -> before x y l -> desc x y.
Proof.
  unfold before. induction 1 as [|z l Hl IH Hz].
  - intros H. apply sublist_nil_r in H. discriminate.
  - intros [H | (l' & [= <- <-] & H)]%sublist_cons_r; [exact (IH H)|].
    apply singleton_sublist_l in H. rewrite Forall_forall in Hz.
    apply Hz. exact H.
Qed.

(** The sort is stable: items of equal count keep their order. *)
Lemma sorted_desc_stable x y l :
  snd x = snd y -> before x y (sorted_desc l) -> before x y l.
Proof.
  intros Hxy. unfold before.
  induction l as [|a l IH]; cbn [sorted_desc fold_right]; [tauto|].
  fold (sorted_desc l).
  destruct (insert_desc_split a (sorted_desc l)) as (s1 & s2 & E & -> & Hs1).
  assert (Keep : [x; y] `sublist_of` s1 ++ s2 -> [x; y] `sublist_of` a :: l)
    by (rewrite <- E; intros H; apply sublist_cons, IH, H).
  intros (l1 & l2 & El & H1 & H2)%sublist_app_r.
  apply sublist_cons_r in H2 as [H2 | (l2' & -> & H2)].
  - apply Keep. rewrite El. apply sublist_app; assumption.
  - destruct l1 as [|x1 [|y1 l1]]; cbn [app] in El.
    + injection El as <- <-. apply sublist_skip, singleton_sublist_l.
      apply singleton_sublist_l in H2.
      rewrite <- (sorted_desc_perm l), E. set_solver.
    + injection El as <- <- <-.
      apply singleton_sublist_l in H1. rewrite Forall_forall in Hs1.
      apply Hs1 in H1. lia.
    + injection El as _ _ El. destruct l1; discriminate.
Qed.

(** *** [dict] of pairs with distinct keys *)

Lemma dict_set_fresh k v d : k ∉ d.*1 -> dict_set k v d = d ++ [(k, v)].
Proof.
  induction d as [|[k' v'] d IH]; cbn [dict_set fmap list_fmap fst app];
    [reflexivity|].
  intros Hk. rewrite decide_False by set_solver.
  f_equal. apply IH. set_solver.
Qed.

Lemma dict_fold pairs : forall acc,
  NoDup ((acc ++ pairs).*1) ->
  fold_left (fun d kv => dict_set (fst kv) (snd kv) d) pairs acc = acc ++ pairs.
Proof.
  induction pairs as [|[k v] pairs IH]; intros acc Hnd; cbn [fold_left].
  - rewrite app_nil_r. reflexivity.
  - cbn [fst snd]. rewrite dict_set_fresh.
    + rewrite IH; rewrite <- app_assoc; [reflexivity | exact Hnd].
    + rewrite fmap_app in Hnd. apply NoDup_app in Hnd as (_ & Hnd & _).
      intros Hin. apply (Hnd k Hin). cbn. set_solver.
Qed.

Lemma dict_distinct pairs : NoDup pairs.*1 -> dict pairs = pairs.
Proof. intros H. unfold dict. apply (dict_fold pairs []). exact H. Qed.

Lemma most_common_keys ts n : NoDup (most_common (Counter ts) n).*1.
Proof.
  unfold most_common. rewrite fmap_take.
  eapply sublist_NoDup; [|apply sublist_take].
  rewrite (sorted_desc_perm (Counter ts)), Counter_keys.
  apply first_seen_NoDup.
Qed.

Section FrequencyFacts.

Variable sw : option (list str).
Variable wt : str -> option (list str).

Lemma get_word_frequency_eq text top_n :
  get_word_frequency sw wt text top_n
  = take (Z.to_nat top_n)
      (sorted_desc
         (Counter (List.filter (frequency_word sw)
                     (tokenize wt (clean_text text))))).
Proof.
  unfold get_word_frequency. cbn zeta. apply dict_distinct, most_common_keys.
Qed.

(** C6. The frequency analyzer returns at most [top_n] entries, in the
    order of decreasing count, entries of equal count being in the order
    in which their words first occur among the tokens. *)
Theorem word_frequency_ranked (text : str) (top_n : nat) :
  let result := get_word_frequency sw wt text (Z.of_nat top_n) in
  let tokens := tokenize wt (clean_text text) in
  length result <= top_n
  /\ (forall i j w1 n1 w2 n2,
        i < j -> result !! i = Some (w1, n1) -> result !! j = Some (w2, n2) ->
        n2 <= n1)
  /\ (forall i j w1 w2 n,
        i < j -> result !! i = Some (w1, n) -> result !! j = Some (w2, n) ->
        exists a b, first_index w1 tokens = Some a
                    /\ first_index w2 tokens = Some b /\ a < b).
Proof.
  cbn zeta. rewrite get_word_frequency_eq, Nat2Z.id.
  set (tokens := tokenize wt (clean_text text)).
  set (kept := List.filter (frequency_word sw) tokens).
  split; [|split].
  - rewrite length_take. lia.
  - intros i j w1 n1 w2 n2 Hij Hi Hj.
    pose proof (before_lookup _ _ _ _ _ Hij Hi Hj) as Hb.
    assert (Hs : before (w1, n1) (w2, n2) (sorted_desc (Counter kept)))
      by (eapply before_sublist; [exact Hb | apply sublist_take]).
    exact (sorted_before _ _ _ (sorted_desc_sorted (Counter kept)) Hs).
  - intros i j w1 w2 n Hij Hi Hj.
    pose proof (before_lookup _ _ _ _ _ Hij Hi Hj) as Hb.
    assert (Hs : before (w1, n) (w2, n) (sorted_desc (Counter kept)))
      by (eapply before_sublist; [exact Hb | apply sublist_take]).
    apply sorted_desc_stable in Hs; [|reflexivity].
    assert (Hk : before w1 w2 (first_seen kept)).
    { rewrite <- Counter_keys. unfold before in *.
      change [w1; w2] with ([(w1, n); (w2, n)].*1). apply fmap_sublist, Hs. }
    destruct (first_seen_order _ _ _ Hk) as (a & b & Ha & Hb' & Hab).
    exact (first_index_filter _ _ _ _ _ _ Ha Hb' Hab).
Qed.

End FrequencyFacts.

Lemma frequency_word_list sw w :
  frequency_word sw w
  = bool_decide (w ∉ stop_list sw) && (2 <? length w) && isalpha w.
Proof.
  unfold frequency_word. do 2 f_equal. apply bool_decide_ext.
  rewrite stop_words_list, elem_of_list_to_set. reflexivity.
Qed.

Lemma get_word_frequency_run sw wt text top_n :
  get_word_frequency sw wt text top_n
  = take (Z.to_nat top_n)
      (sorted_desc
         (Counter
            (List.filter
               (fun w => bool_decide (w ∉ stop_list sw) && (2 <? length w)
                         && isalpha w)
               (tokenize wt (clean_text text))))).
Proof.
  rewrite get_word_frequency_eq. do 3 f_equal.
  apply filter_ext. intros w. apply frequency_word_list.
Qed.

Lemma word_frequency_ranked_witness :
  let text := lit "bbb aaa aaa bbb ccc ccc ccc the the the the" in
  let result := get_word_frequency no_nltk_stopwords no_punkt text 3 in
  result = [(lit "ccc", 3); (lit "bbb", 2); (lit "aaa", 2)]
  /\ exists a b,
      first_index (lit "bbb") (tokenize no_punkt (clean_text text)) = Some a
      /\ first_index (lit "aaa") (tokenize no_punkt (clean_text text)) = Some b
      /\ a < b.
Proof.
  cbn zeta.
  assert (E : get_word_frequency no_nltk_stopwords no_punkt
                (lit "bbb aaa aaa bbb ccc ccc ccc the the the the") 3
              = [(lit "ccc", 3); (lit "bbb", 2); (lit "aaa", 2)])
    by (rewrite get_word_frequency_run; vm_compute; reflexivity).
  split; [exact E|].
  apply (proj2 (proj2 (word_frequency_ranked no_nltk_stopwords no_punkt
                         (lit "bbb aaa aaa bbb ccc ccc ccc the the the the") 3))
           1 2 (lit "bbb") (lit "aaa") 2).
  - lia.
  - change (Z.of_nat 3) with 3%Z. rewrite E. reflexivity.
  - change (Z.of_nat 3) with 3%Z. rewrite E. reflexivity.
Defined.

(** ** The matcher against a declarative reading of the patterns *)

Lemma matches_frame re l r g l' r' g' :
  matches re l r g l' r' g' -> exists m, r = m ++ r' /\ l' = rev m ++ l.
Proof.
  induction 1 as [l r g|p c l r g Hc|l r g Hb
                 |r1 r2 l r g l1 rr1 g1 l2 rr2 g2 _ (m1 & E1 & F1) _ (m2 & E2 & F2)
                 |re l r g l' r' g' _ IH|re l r g
                 |p lo hi cs l r g|re l r g l' r' g' _ IH].
  - exists []. split; reflexivity.
  - exists [c]. split; reflexivity.
  - exists []. split; reflexivity.
  - exists (m1 ++ m2). subst. rewrite rev_app_distr, <- !app_assoc.
    split; reflexivity.
  - exact IH.
  - exists []. split; reflexivity.
  - exists cs. split; reflexivity.
  - exact IH.
Qed.

Section MatcherFacts.

Context {A : Type}.
Implicit Types k : str -> str -> option str -> option A.

Lemma rep_sound p : forall r lo hi l g k a,
  rep p lo hi l r g k = Some a ->
  exists cs r', r = cs ++ r' /\ Forall (fun c => p c = true) cs
                /\ lo <= length cs /\ within hi (length cs)
                /\ k (rev cs ++ l) r' g = Some a.
Proof.
  assert (Stop : forall r lo hi l g k a,
    match lo with 0 => k l r g | S _ => None end = Some a ->
    exists cs r', r = cs ++ r' /\ Forall (fun c => p c = true) cs
                  /\ lo <= length cs /\ within hi (length cs)
                  /\ k (rev cs ++ l) r' g = Some a).
  { intros r lo hi l g k a H. destruct lo; [|discriminate].
    exists [], r. repeat split; [constructor | reflexivity | | exact H].
    destruct hi; cbn; lia. }
  induction r as [|c r IH]; intros lo hi l g k a; cbn [rep].
  - apply Stop.
  - destruct (p c && more_allowed hi) eqn:Hc; [|apply Stop].
    apply andb_true_iff in Hc as [Hc Hm].
    destruct (rep p (pred lo) (dec_bound hi) (c :: l) r g k) as [a'|] eqn:E;
      [|apply Stop].
    intros [= <-]. destruct (IH _ _ _ _ _ _ E) as (cs & r' & -> & Hcs & Hlo & Hhi & Hk).
    exists (c :: cs), r'. cbn [app length rev]. rewrite <- app_assoc.
    repeat split; [constructor; assumption | lia | | exact Hk].
    destruct hi as [h|]; [|exact I].
    cbn [more_allowed within dec_bound] in *. apply Nat.ltb_lt in Hm. lia.
Qed.

Lemma rep_complete p : forall cs lo hi l r' g k,
  Forall (fun c => p c = true) cs -> lo <= length cs -> within hi (length cs) ->
  is_Some (k (rev cs ++ l) r' g) ->
  is_Some (rep p lo hi l (cs ++ r') g k).
Proof.
  induction cs as [|c cs IH]; intros lo hi l r' g k Hcs Hlo Hhi Hk.
  - cbn in Hlo. assert (lo = 0) as -> by lia. cbn [app rev] in *.
    destruct r' as [|c r']; cbn [rep]; [exact Hk|].
    destruct (p c && more_allowed hi); [|exact Hk].
    destruct (rep p (pred 0) (dec_bound hi) (c :: l) r' g k); [eauto | exact Hk].
  - inversion Hcs as [|? ? Hc Hcs']; subst. cbn [app rep length] in *.
    assert (Hm : more_allowed hi = true)
      by (destruct hi; cbn [more_allowed within] in *;
          [apply Nat.ltb_lt; lia | reflexivity]).
    rewrite Hc, Hm. cbn [andb].
    assert (H : is_Some (rep p (pred lo) (dec_bound hi) (c :: l) (cs ++ r') g k)).
    { apply IH; [exact Hcs' | lia
                | destruct hi; cbn [within dec_bound] in *; lia |].
      cbn [rev] in Hk. rewrite <- app_assoc in Hk. exact Hk. }
    destruct H as [a ->]. eauto.
Qed.

Lemma run_sound re : forall l r g k a,
  run re l r g k = Some a ->
  exists l' r' g', matches re l r g l' r' g' /\ k l' r' g' = Some a.
Proof.
  induction re as [|p| |r1 IH1 r2 IH2|re IH|p lo hi|re IH];
    intros l r g k a; cbn [run].
  - intros H. exists l, r, g. split; [constructor | exact H].
  - destruct r as [|c r]; [discriminate|].
    destruct (p c) eqn:Hc; [|discriminate].
    intros H. exists (c :: l), r, g. split; [constructor; exact Hc | exact H].
  - destruct (at_boundary l r) eqn:Hb; [|discriminate].
    intros H. exists l, r, g. split; [constructor; exact Hb | exact H].
  - intros H. apply IH1 in H as (l1 & rr1 & g1 & M1 & H).
    apply IH2 in H as (l2 & rr2 & g2 & M2 & H).
    exists l2, rr2, g2. split; [econstructor; eassumption | exact H].
  - destruct (run re l r g k) as [a'|] eqn:E.
    + intros [= <-]. apply IH in E as (l' & r' & g' & M & H).
      exists l', r', g'. split; [apply M_opt_some, M | exact H].
    + intros H. exists l, r, g. split; [apply M_opt_none | exact H].
  - intros H. apply rep_sound in H as (cs & r' & -> & Hcs & Hlo & Hhi & H).
    exists (rev cs ++ l), r', g. split; [constructor; assumption | exact H].
  - intros H. apply IH in H as (l' & r' & g' & M & H).
    eexists l', r', _. split; [exact (M_grp _ _ _ _ _ _ _ M) | exact H].
Qed.

Lemma run_complete re l r g l' r' g' :
  matches re l r g l' r' g' ->
  forall k, is_Some (k l' r' g') -> is_Some (run re l r g k).
Proof.
  induction 1 as [l r g|p c l r g Hc|l r g Hb
                 |r1 r2 l r g l1 rr1 g1 l2 rr2 g2 _ IH1 _ IH2
                 |re l r g l' r' g' _ IH|re l r g
                 |p lo hi cs l r g Hcs Hlo Hhi|re l r g l' r' g' _ IH];
    intros k Hk; cbn [run].
  - exact Hk.
  - rewrite Hc. exact Hk.
  - rewrite Hb. exact Hk.
  - apply IH1, IH2, Hk.
  - destruct (IH k Hk) as [a ->]. eauto.
  - destruct (run re l r g k); [eauto | exact Hk].
  - apply rep_complete; assumption.
  - apply IH. exact Hk.
Qed.

End MatcherFacts.

Lemma match_at_Some re l r m g :
  match_at re l r = Some (m, g) ->
  exists r', r = m ++ r' /\ matches re l r None (rev m ++ l) r' g.
Proof.
  unfold match_at. intros H.
  apply run_sound in H as (l' & r' & g' & M & [= <- <-]).
  destruct (matches_frame _ _ _ _ _ _ _ M) as (m' & -> & ->).
  rewrite matched_text. exists r'. split; [reflexivity | exact M].
Qed.

Lemma match_at_None re l r :
  match_at re l r = None ->
  forall l' r' g', ~ matches re l r None l' r' g'.
Proof.
  unfold match_at. intros H l' r' g' M.
  eapply run_complete in M as [a Ha]; [rewrite H in Ha; discriminate|].
  cbn. eauto.
Qed.

(** [re.search] finds the leftmost position that has a match. *)
Lemma search_from_Some re : forall r l m g,
  search_from re l r = Some (m, g) ->
  exists pre post,
    r = pre ++ m ++ post
    /\ matches re (rev pre ++ l) (m ++ post) None (rev m ++ rev pre ++ l) post g
    /\ forall pre' r2 l' r' g',
         r = pre' ++ r2 -> length pre' < length pre ->
         ~ matches re (rev pre' ++ l) r2 None l' r' g'.
Proof.
  induction r as [|c r IH]; intros l m g; cbn [search_from].
  - destruct (match_at re l []) as [[m' g']|] eqn:E; [|discriminate].
    intros [= -> ->]. apply match_at_Some in E as (r' & E & M).
    exists [], r'. cbn [app rev length]. repeat split; [exact E | |].
    + rewrite <- E. exact M.
    + intros; lia.
  - destruct (match_at re l (c :: r)) as [[m' g']|] eqn:E.
    + intros [= -> ->]. apply match_at_Some in E as (r' & E & M).
      exists [], r'. cbn [app rev length]. repeat split; [exact E | |].
      * rewrite <- E. exact M.
      * intros; lia.
    + intros H. apply IH in H as (pre & post & -> & M & Hmin).
      exists (c :: pre), post. cbn [app rev length]. rewrite <- !app_assoc.
      repeat split; [exact M|].
      intros pre' r2 l' r' g' Hsplit Hlen.
      destruct pre' as [|c' pre'].
      * cbn [app rev] in *. subst r2. apply match_at_None. exact E.
      * cbn [app rev length] in *. injection Hsplit as <- Hsplit.
        rewrite <- app_assoc. apply Hmin; [exact Hsplit | lia].
Qed.

Lemma search_from_None re : forall r l,
  search_from re l r = None ->
  forall pre r2 l' r' g',
    r = pre ++ r2 -> ~ matches re (rev pre ++ l) r2 None l' r' g'.
Proof.
  induction r as [|c r IH]; intros l; cbn [search_from].
  - destruct (match_at re l []) eqn:E; [discriminate|].
    intros _ pre r2 l' r' g' Hsplit.
    symmetry in Hsplit. apply app_eq_nil in Hsplit as [-> ->].
    apply match_at_None. exact E.
  - destruct (match_at re l (c :: r)) eqn:E; [discriminate|].
    intros H pre r2 l' r' g' Hsplit. destruct pre as [|c' pre].
    + cbn [app rev] in *. subst r2. apply match_at_None. exact E.
    + cbn [app rev] in *. injection Hsplit as <- Hsplit.
      rewrite <- app_assoc. apply (IH _ H). exact Hsplit.
Qed.

Lemma scan_head re : forall r l, head (scan re 0 l r) = search_from re l r.
Proof.
  induction r as [|c r IH]; intros l; cbn [scan search_from].
  - destruct (match_at re l []); reflexivity.
  - destruct (match_at re l (c :: r)); [reflexivity | apply IH].
Qed.

Lemma findall_head re text :
  head (findall re text) = report re <$> search re text.
Proof.
  unfold findall, search. rewrite <- scan_head.
  destruct (scan re 0 [] text); reflexivity.
Qed.

(** ** Email extractor *)

Lemma matches_cat_inv r1 r2 l r g l2 rr2 g2 :
  matches (Cat r1 r2) l r g l2 rr2 g2 ->
  exists l1 rr1 g1, matches r1 l r g l1 rr1 g1 /\ matches r2 l1 rr1 g1 l2 rr2 g2.
Proof. inversion 1; subst. eauto. Qed.

Lemma matches_wordb_inv l r g l' r' g' :
  matches WordB l r g l' r' g' ->
  l' = l /\ r' = r /\ g' = g /\ at_boundary l r = true.
Proof. inversion 1; subst. auto. Qed.

Lemma matches_chr_inv p l r g l' r' g' :
  matches (Chr p) l r g l' r' g' ->
  exists c, r = c :: r' /\ l' = c :: l /\ g' = g /\ p c = true.
Proof. inversion 1; subst. eauto. Qed.

Lemma matches_rep_inv p lo hi l r g l' r' g' :
  matches (Rep p lo hi) l r g l' r' g' ->
  exists cs, r = cs ++ r' /\ l' = rev cs ++ l /\ g' = g
             /\ Forall (fun c => p c = true) cs
             /\ lo <= length cs /\ within hi (length cs).
Proof. inversion 1; subst. eexists. repeat split; eauto. Qed.

Lemma matches_eps_inv l r g l' r' g' :
  matches Eps l r g l' r' g' -> l' = l /\ r' = r /\ g' = g.
Proof. inversion 1; subst. auto. Qed.

Lemma exactly_true x c : Char.exactly x c = true <-> c = x.
Proof. unfold Char.exactly. rewrite Ascii.eqb_eq. split; congruence. Qed.

Lemma email_matches l r g l' r' g' :
  matches email_pattern l r g l' r' g' <->
  exists m, r = m ++ r' /\ l' = rev m ++ l /\ g' = g
            /\ email_shape email_tld m
            /\ at_boundary l r = true /\ at_boundary l' r' = true.
Proof.
  unfold email_pattern. split.
  - intros M. destruct (matches_frame _ _ _ _ _ _ _ M) as (m & Er & El).
    apply matches_cat_inv in M as (l0 & r0 & g0 & M0 & M).
    apply matches_wordb_inv in M0 as (-> & -> & -> & B0).
    apply matches_cat_inv in M as (l1 & r1 & g1 & M1 & M).
    apply matches_rep_inv in M1 as (local & E1 & -> & -> & Hl & Nl & _).
    apply matches_cat_inv in M as (l2 & r2 & g2 & M2 & M).
    apply matches_chr_inv in M2 as (c2 & E2 & -> & -> & ->%exactly_true).
    apply matches_cat_inv in M as (l3 & r3 & g3 & M3 & M).
    apply matches_rep_inv in M3 as (domain & E3 & -> & -> & Hd & Nd & _).
    apply matches_cat_inv in M as (l4 & r4 & g4 & M4 & M).
    apply matches_chr_inv in M4 as (c4 & E4 & -> & -> & ->%exactly_true).
    apply matches_cat_inv in M as (l5 & r5 & g5 & M5 & M).
    apply matches_rep_inv in M5 as (tld & E5 & -> & -> & Ht & Nt & _).
    apply matches_wordb_inv in M as (-> & -> & -> & B1).
    exists m. repeat split; try assumption.
    exists local, domain, tld.
    assert (Em : m = local ++ "@"%char :: domain ++ "."%char :: tld).
    { apply (app_inv_tail r5). rewrite <- Er, E1, E2, E3, E4, E5.
      repeat (cbn [app] || rewrite <- app_assoc). reflexivity. }
    repeat split; try assumption.
    + intros ->. cbn in Nl. lia.
    + intros ->. cbn in Nd. lia.
  - intros (m & -> & -> & -> & (local & domain & tld & -> & Nl & Hl & Nd & Hd & Nt & Ht)
            & B0 & B1).
    set (m := local ++ "@"%char :: domain ++ "."%char :: tld) in *.
    assert (Er : m ++ r'
                 = local ++ "@"%char :: domain ++ "."%char :: tld ++ r').
    { unfold m. repeat (cbn [app] || rewrite <- app_assoc). reflexivity. }
    assert (El : rev m ++ l
                 = rev tld ++ "."%char :: rev domain ++ "@"%char :: rev local ++ l).
    { unfold m.
      repeat (cbn [rev app] || rewrite rev_app_distr || rewrite <- app_assoc).
      reflexivity. }
    rewrite El in *. rewrite Er in *.
    eapply M_cat; [apply M_wordb, B0|].
    eapply M_cat; [apply M_rep; [exact Hl | | exact I]|].
    { destruct local; [congruence | cbn; lia]. }
    eapply M_cat; [apply M_chr, exactly_true; reflexivity|].
    eapply M_cat; [apply M_rep; [exact Hd | | exact I]|].
    { destruct domain; [congruence | cbn; lia]. }
    eapply M_cat; [apply M_chr, exactly_true; reflexivity|].
    eapply M_cat; [apply M_rep; [exact Ht | exact Nt | exact I]|].
    apply M_wordb, B1.
Qed.

Lemma email_at_matches text pre m post :
  email_at email_tld text pre m post <->
  text = pre ++ m ++ post
  /\ matches email_pattern (rev pre) (m ++ post) None (rev m ++ rev pre) post None.
Proof.
  unfold email_at, word_bounded. rewrite email_matches. split.
  - intros (E & Hs & B0 & B1). split; [exact E|].
    exists m. repeat split; assumption.
  - intros (E & m' & Em & _ & _ & Hs & B0 & B1).
    apply app_inv_tail in Em. subst m'. repeat split; assumption.
Qed.

Lemma extract_email_search text :
  extract_email text
  = match search email_pattern text with
    | Some (m, _) => m
    | None => not_found
    end.
Proof.
  unfold extract_email. pose proof (findall_head email_pattern text) as H.
  destruct (findall email_pattern text) as [|e es],
           (search email_pattern text) as [[m g]|]; cbn in H;
    try discriminate; [reflexivity|].
  injection H as ->. reflexivity.
Qed.

(** The search of [extract_email] against the occurrences of the shape,
    with the class of the source for [tld]. *)
Lemma search_email text :
  match search email_pattern text with
  | Some (m, _) =>
      exists pre post,
        email_at email_tld text pre m post
        /\ forall pre' m' post',
             email_at email_tld text pre' m' post' -> length pre <= length pre'
  | None => forall pre m post, ~ email_at email_tld text pre m post
  end.
Proof.
  unfold search. destruct (search_from email_pattern [] text) as [[m g]|] eqn:E.
  - apply search_from_Some in E as (pre & post & Et & M & Hmin).
    rewrite !app_nil_r in M.
    assert (g = None) as ->.
    { apply email_matches in M as (? & _ & _ & ? & _). congruence. }
    exists pre, post. split; [apply email_at_matches; auto|].
    intros pre' m' post' (Et' & M')%email_at_matches.
    destruct (le_lt_dec (length pre) (length pre')) as [|Hlt]; [assumption|].
    exfalso. rewrite <- (app_nil_r (rev pre')) in M'.
    exact (Hmin pre' (m' ++ post') _ _ _ Et' Hlt M').
  - intros pre m post (Et & M)%email_at_matches.
    rewrite <- (app_nil_r (rev pre)) in M.
    exact (search_from_None _ _ _ E pre (m ++ post) _ _ _ Et M).
Qed.

Lemma email_shape_at m tld_char : email_shape tld_char m -> "@"%char ∈ m.
Proof.
  intros (local & domain & tld & -> & _). set_solver.
Qed.

Lemma email_tld_letter c :
  c <> "|"%char -> email_tld c = true -> Char.letter c = true.
Proof.
  intros Hc. unfold email_tld, Char.letter.
  destruct (Char.exactly "|" c) eqn:E; [apply exactly_true in E; contradiction|].
  destruct (Char.upper_az c), (Char.lower_az c); cbn; congruence.
Qed.

Lemma letter_email_tld c : Char.letter c = true -> email_tld c = true.
Proof.
  unfold email_tld, Char.letter.
  destruct (Char.upper_az c), (Char.lower_az c), (Char.exactly "|" c); cbn;
    congruence.
Qed.

Lemma email_at_letters text pre m post :
  "|"%char ∉ text ->
  email_at email_tld text pre m post <-> email_at Char.letter text pre m post.
Proof.
  intros Hbar. unfold email_at, email_shape. split.
  - intros (Et & (local & domain & tld & Em & Nl & Hl & Nd & Hd & Nt & Ht) & B).
    split; [exact Et | split; [|exact B]]. exists local, domain, tld.
    repeat split; try assumption.
    rewrite Forall_forall in *. intros c Hc. apply email_tld_letter; [|auto].
    intros ->. apply Hbar. subst. set_solver.
  - intros (Et & (local & domain & tld & Em & Nl & Hl & Nd & Hd & Nt & Ht) & B).
    split; [exact Et | split; [|exact B]]. exists local, domain, tld.
    repeat split; try assumption.
    eapply Forall_impl; [exact Ht|]. intros c. apply letter_email_tld.
Qed.

(** C2, as stated, fails when the address is followed by a word
    character: the text has a substring of the shape and the extractor
    reports none. *)
Lemma extract_email_counterexample :
  let text := lit "jane@example.com5551234567" in
  (exists pre m post, text = pre ++ m ++ post /\ email_shape Char.letter m)
  /\ extract_email text = not_found.
Proof.
  cbn zeta. split; [|vm_compute; reflexivity].
  exists [], (lit "jane@example.com"), (lit "5551234567").
  split; [reflexivity|].
  exists (lit "jane"), (lit "example"), (lit "com").
  repeat split; try discriminate; try (cbn; lia);
    apply Forall_forall; intros c Hc; vm_compute in Hc;
    repeat (apply elem_of_cons in Hc as [->|Hc]; [reflexivity|]);
    inversion Hc.
Qed.

(** C2, as amended. On a text without ['|'] the email extractor returns
    the first substring, delimited by word boundaries, of the shape
    [local@domain.tld] with [tld] two or more letters, and ["Not found"]
    when there is none; a text without ['@'] gives ["Not found"]; the text
    of the example gives its first address. *)
Theorem extract_email_first :
  (forall text, "|"%char ∉ text ->
     (extract_email text = not_found
      /\ forall pre m post, ~ email_at Char.letter text pre m post)
     \/ (exists pre m post,
           extract_email text = m
           /\ email_at Char.letter text pre m post
           /\ forall pre' m' post',
                email_at Char.letter text pre' m' post' ->
                length pre <= length pre'))
  /\ (forall text, "@"%char ∉ text -> extract_email text = not_found)
  /\ extract_email (lit "contact me at a.b@example.com or c@d.org")
     = lit "a.b@example.com".
Proof.
  split; [|split].
  - intros text Hbar. rewrite extract_email_search.
    pose proof (search_email text) as H.
    destruct (search email_pattern text) as [[m g]|].
    + right. destruct H as (pre & post & Hat & Hmin).
      exists pre, m, post. split; [reflexivity|].
      split; [apply email_at_letters; assumption|].
      intros pre' m' post' Hat'. apply (Hmin pre' m' post').
      apply email_at_letters; assumption.
    + left. split; [reflexivity|]. intros pre m post Hat.
      apply (H pre m post). apply email_at_letters; assumption.
  - intros text Hat. rewrite extract_email_search.
    pose proof (search_email text) as H.
    destruct (search email_pattern text) as [[m g]|]; [|reflexivity].
    destruct H as (pre & post & (Et & Hs & _) & _).
    exfalso. apply Hat. apply email_shape_at in Hs. subst. set_solver.
  - vm_compute. reflexivity.
Qed.

Lemma extract_email_first_witness :
  ("|"%char ∉ lit "contact me at a.b@example.com or c@d.org")
  /\ exists pre post,
       email_at Char.letter (lit "contact me at a.b@example.com or c@d.org")
         pre (lit "a.b@example.com") post.
Proof.
  assert (Hbar : "|"%char ∉ lit "contact me at a.b@example.com or c@d.org")
    by (apply (bool_decide_unpack _); vm_compute; exact I).
  split; [exact Hbar|].
  destruct (proj1 extract_email_first _ Hbar)
    as [[E _]|(pre & m & post & E & Hat & _)].
  - vm_compute in E. discriminate.
  - exists pre, post.
    assert (Em : m = lit "a.b@example.com")
      by (rewrite <- E; vm_compute; reflexivity).
    rewrite <- Em. exact Hat.
Defined.

(** ** Phone extractor *)

Lemma extract_phone_search text :
  extract_phone text
  = match search phone_pattern text with
    | Some (_, Some g) => g
    | Some (_, None) => []
    | None => not_found
    end.
Proof.
  unfold extract_phone. pose proof (findall_head phone_pattern text) as H.
  destruct (findall phone_pattern text) as [|e es],
           (search phone_pattern text) as [[m g]|]; cbn in H;
    try discriminate; [reflexivity|].
  injection H as ->. destruct g; reflexivity.
Qed.

(** The sentinel is returned exactly when no position of the text has a
    match of the pattern. *)
Lemma extract_phone_not_found text :
  (forall pre r2 l' r' g',
     text = pre ++ r2 -> ~ matches phone_pattern (rev pre) r2 None l' r' g') ->
  extract_phone text = not_found.
Proof.
  intros Hno. rewrite extract_phone_search. unfold search.
  destruct (search_from phone_pattern [] text) as [[m g]|] eqn:E; [|reflexivity].
  apply search_from_Some in E as (pre & post & Et & M & _).
  rewrite !app_nil_r in M. exfalso. exact (Hno pre (m ++ post) _ _ _ Et M).
Qed.

(** C1, the failing input. On ["555-123-4567"] the pattern matches the
    whole number, without its optional group; [findall] reports the
    content of the group, and the extractor returns the empty string. On
    ["+1 555-123-4567"] it returns the country code ["+1 "]. *)
Theorem extract_phone_returns_group :
  search phone_pattern (lit "555-123-4567") = Some (lit "555-123-4567", None)
  /\ extract_phone (lit "555-123-4567") = lit ""
  /\ extract_phone (lit "+1 555-123-4567") = lit "+1 ".
Proof. repeat split; vm_compute; reflexivity. Qed.

(** ** Skill matcher *)

Lemma escape_matches s : forall l r g l' r' g',
  matches (escape s) l r g l' r' g' <->
  r = s ++ r' /\ l' = rev s ++ l /\ g' = g.
Proof.
  induction s as [|c s IH]; intros l r g l' r' g'; cbn [escape].
  - split.
    + intros (-> & -> & ->)%matches_eps_inv. auto.
    + intros (-> & -> & ->). constructor.
  - split.
    + intros (l1 & r1 & g1 & M1 & M2)%matches_cat_inv.
      apply matches_chr_inv in M1 as (c' & -> & -> & -> & ->%exactly_true).
      apply IH in M2 as (-> & -> & ->). cbn [app rev].
      rewrite <- app_assoc. auto.
    + intros (-> & -> & ->). cbn [app rev]. rewrite <- app_assoc.
      eapply M_cat; [apply M_chr, exactly_true; reflexivity|].
      apply IH. auto.
Qed.

Lemma first_is_word_app s t :
  first_is_word s = true -> first_is_word (s ++ t) = true.
Proof. destruct s; [discriminate | trivial]. Qed.

(** For a term that starts and ends with a word character, the search of
    the skill matcher succeeds exactly on the texts where the term occurs
    as a whole word. *)
Lemma skill_in_whole_word text skill :
  first_is_word skill = true -> first_is_word (rev skill) = true ->
  skill_in text skill = true <->
  exists pre post, whole_word_at text pre skill post.
Proof.
  intros Hs He. unfold skill_in, search, whole_word_at.
  assert (Hm : forall pre post,
    matches (skill_pattern skill) (rev pre) (skill ++ post) None
            (rev skill ++ rev pre) post None
    <-> first_is_word (rev pre) = false /\ first_is_word post = false).
  { intros pre post. unfold skill_pattern, at_boundary. split.
    - intros (l1 & r1 & g1 & M1 & M)%matches_cat_inv.
      apply matches_wordb_inv in M1 as (-> & -> & -> & B0).
      apply matches_cat_inv in M as (l2 & r2 & g2 & M2 & M).
      apply escape_matches in M2 as (E & -> & ->).
      apply app_inv_head in E. subst r2.
      apply matches_wordb_inv in M as (_ & _ & _ & B1).
      unfold at_boundary in *.
      rewrite (first_is_word_app _ _ Hs) in B0.
      rewrite (first_is_word_app _ _ He) in B1.
      split; [destruct (first_is_word (rev pre)) | destruct (first_is_word post)];
        cbn in *; congruence.
    - intros [B0 B1].
      eapply M_cat; [apply M_wordb|].
      { unfold at_boundary. rewrite (first_is_word_app _ _ Hs), B0. reflexivity. }
      eapply M_cat; [apply escape_matches; repeat split|].
      apply M_wordb. unfold at_boundary.
      rewrite (first_is_word_app _ _ He), B1. reflexivity. }
  destruct (search_from (skill_pattern skill) [] text) as [[m g]|] eqn:E.
  - split; [intros _|reflexivity].
    apply search_from_Some in E as (pre & post & Et & M & _).
    rewrite !app_nil_r in M.
    assert (m = skill /\ g = None) as [-> ->].
    { unfold skill_pattern in M.
      apply matches_cat_inv in M as (l1 & r1 & g1 & M1 & M).
      apply matches_wordb_inv in M1 as (-> & -> & -> & _).
      apply matches_cat_inv in M as (l2 & r2 & g2 & M2 & M).
      apply escape_matches in M2 as (E & -> & ->).
      apply matches_wordb_inv in M as (El & -> & -> & _).
      apply app_inv_tail, rev_inj in El. auto. }
    exists pre, post. split; [exact Et | apply Hm, M].
  - split; [discriminate|]. intros (pre & post & Et & B).
    exfalso. apply Hm in B. rewrite <- (app_nil_r (rev pre)) in B.
    exact (search_from_None _ _ _ E pre (skill ++ post) _ _ _ Et B).
Qed.

(** A skill is reported under a category exactly when the taxonomy lists
    it there and the search finds it. *)
Lemma skills_of_reports taxonomy text_lower category skill :
  (exists found, In (category, found) (skills_of taxonomy text_lower)
                 /\ In skill found)
  <-> (exists skills, In (category, skills) taxonomy /\ In skill skills
                      /\ skill_in text_lower skill = true).
Proof.
  induction taxonomy as [|[c ss] rest IH]; cbn [skills_of].
  - split; intros (? & [] & _).
  - assert (Hhead : forall found,
      found = List.filter (skill_in text_lower) ss ->
      (In skill found <-> In skill ss /\ skill_in text_lower skill = true))
      by (intros found ->; apply filter_In).
    destruct (List.filter (skill_in text_lower) ss) as [|f fs] eqn:E.
    + rewrite IH. split.
      * intros (skills & Hin & Hs). exists skills. split; [right; exact Hin | exact Hs].
      * intros (skills & [[= <- <-]|Hin] & Hs & Hf).
        -- exfalso. apply (proj2 (Hhead [] eq_refl)). split; assumption.
        -- exists skills. auto.
    + split.
      * intros (found & [[= <- <-]|Hin] & Hs).
        -- exists ss. split; [left; reflexivity | apply (Hhead _ eq_refl), Hs].
        -- destruct (proj1 IH (ex_intro _ found (conj Hin Hs)))
             as (skills & Hin' & Hs').
           exists skills. split; [right; exact Hin' | exact Hs'].
      * intros (skills & [[= <- <-]|Hin] & Hs & Hf).
        -- exists (f :: fs). split; [left; reflexivity|].
           apply (Hhead _ eq_refl). split; assumption.
        -- destruct (proj2 IH (ex_intro _ skills (conj Hin (conj Hs Hf))))
             as (found & Hin' & Hs').
           exists found. split; [right; exact Hin' | exact Hs'].
Qed.

(** X10. For the terms of the taxonomy that start and end with a word
    character, the matcher reports the term exactly when it occurs in the
    lowercased text as a whole word. *)
Lemma extract_skills_whole_word text category skills skill :
  In (category, skills) skill_keywords -> In skill skills ->
  first_is_word skill = true -> first_is_word (rev skill) = true ->
  (exists found, In (category, found) (extract_skills text) /\ In skill found)
  <-> (exists pre post, whole_word_at (lower text) pre skill post).
Proof.
  intros Hc Hs Hb He. unfold extract_skills.
  rewrite skills_of_reports, <- (skill_in_whole_word _ _ Hb He). split.
  - intros (? & _ & _ & H). exact H.
  - intros H. exists skills. auto.
Qed.

(** C3, the failing input. In ["I know C++ and C#"], lowercased, the
    term ["c++"] occurs as a whole word, and the matcher reports no
    skill: after the [+] the pattern asks for a word boundary, which needs
    a word character next. The other two examples hold: nothing
    for ["Pythonic"], [python] for ["I use Python daily"]. *)
Theorem extract_skills_misses_cpp :
  (exists pre post,
     whole_word_at (lower (lit "I know C++ and C#")) pre (lit "c++") post)
  /\ extract_skills (lit "I know C++ and C#") = []
  /\ extract_skills (lit "C++11") = [(lit "programming", [lit "c++"])]
  /\ extract_skills (lit "Pythonic") = []
  /\ extract_skills (lit "I use Python daily")
     = [(lit "programming", [lit "python"])].
Proof.
  split; [|repeat split; vm_compute; reflexivity].
  exists (lit "i know "), (lit " and c#"). repeat split.
Qed.

(** ** Orchestrator *)

Section OrchestratorFacts.

Variable sw : option (list str).
Variable wt : str -> option (list str).
Variables (pdf exn image : Type).
Variable read_pages : pdf -> outcome exn (list str).
Variable exn_message : exn -> str.
Variable render_cloud : str -> outcome exn image.


End OrchestratorFacts.



(** * Further properties *)

(** ** Text normalizer, further *)

Lemma content_char_cleaned c :
  Char.isspace (clean_char (Char.lower c)) = negb (content_char c).
Proof. each_char c. Qed.

Lemma content_char_kept c :
  content_char c = true -> clean_char (Char.lower c) = Char.lower c.
Proof. each_char c. Qed.

Lemma solid_chars_collapse s : forall b,
  solid_chars (collapse b s) = solid_chars s.
Proof.
  induction s as [|c s IH]; intros b; [reflexivity|].
  cbn [collapse]. destruct (Char.isspace c) eqn:E.
  - destruct b; cbn [solid_chars List.filter]; rewrite ?E; cbn [negb];
      apply IH.
  - cbn [solid_chars List.filter]. rewrite E. cbn [negb]. f_equal. apply IH.
Qed.

Lemma solid_chars_lstrip s : solid_chars (lstrip s) = solid_chars s.
Proof.
  induction s as [|c s IH]; [reflexivity|].
  cbn [lstrip]. destruct (Char.isspace c) eqn:E; [|reflexivity].
  cbn [solid_chars List.filter]. rewrite E. exact IH.
Qed.

Lemma solid_chars_rev s : solid_chars (rev s) = rev (solid_chars s).
Proof.
  unfold solid_chars. induction s as [|c s IH]; [reflexivity|].
  cbn [rev List.filter]. rewrite List.filter_app, IH. cbn [List.filter].
  destruct (negb (Char.isspace c)); cbn [rev]; [reflexivity|].
  apply app_nil_r.
Qed.

Lemma solid_chars_strip s : solid_chars (strip s) = solid_chars s.
Proof.
  unfold strip, rstrip.
  rewrite solid_chars_rev, solid_chars_lstrip, solid_chars_rev, rev_involutive.
  apply solid_chars_lstrip.
Qed.

Lemma solid_chars_cleaned s :
  solid_chars (map clean_char (lower s))
  = map Char.lower (List.filter content_char s).
Proof.
  unfold lower, solid_chars. induction s as [|c s IH]; [reflexivity|].
  cbn [map List.filter]. rewrite content_char_cleaned, negb_involutive.
  destruct (content_char c) eqn:E; [|exact IH].
  cbn [map]. rewrite (content_char_kept _ E), IH. reflexivity.
Qed.

(** X1. The normalizer keeps the letters, digits, [+], [#] and [.] of
    an ASCII text, lowercased and in their order; whatever else it
    returns is a space. *)
Theorem clean_text_content (s : str) :
  ascii_text s ->
  solid_chars (clean_text s) = map Char.lower (List.filter content_char s).
Proof.
  intros _.
  rewrite clean_text_eq, solid_chars_strip, solid_chars_collapse.
  apply solid_chars_cleaned.
Qed.

Lemma normalized_solid_nil s : normalized s -> solid_chars s = [] -> s = [].
Proof.
  intros (Hc & _ & Hh & _) Hs. destruct s as [|c s]; [reflexivity|].
  exfalso. pose proof (normal_solid _ Hc Hh) as Hsolid. cbn in Hsolid.
  cbn [solid_chars List.filter] in Hs. rewrite Hsolid in Hs. discriminate.
Qed.

(** X2. The normalized text of an ASCII text is empty exactly when the
    input has no letter, digit, [+], [#] or [.]. *)
Theorem clean_text_empty (s : str) :
  ascii_text s ->
  clean_text s = [] <-> Forall (fun c => content_char c = false) s.
Proof.
  intros _. split.
  - intros E.
    assert (H : solid_chars (clean_text s)
                = map Char.lower (List.filter content_char s))
      by (rewrite clean_text_eq, solid_chars_strip, solid_chars_collapse;
          apply solid_chars_cleaned).
    rewrite E in H. cbn in H. symmetry in H. apply map_eq_nil in H.
    apply Forall_forall. intros c Hc.
    destruct (content_char c) eqn:K; [|reflexivity].
    assert (Hin : In c (List.filter content_char s))
      by (apply filter_In; split; [apply list_elem_of_In, Hc | exact K]).
    rewrite H in Hin. destruct Hin.
  - intros H. rewrite clean_text_eq.
    apply normalized_solid_nil; [apply cleaned_normalized|].
    rewrite solid_chars_strip, solid_chars_collapse, solid_chars_cleaned.
    replace (List.filter content_char s) with (@nil ascii); [reflexivity|].
    symmetry. clear -H. induction H as [|c s Hc _ IH]; [reflexivity|].
    cbn [List.filter]. rewrite Hc. exact IH.
Qed.

(** X3. The texts the normalizer leaves unchanged are the normalized
    ones. *)
Theorem clean_text_fixed_iff (s : str) : clean_text s = s <-> normalized s.
Proof.
  split; [|apply clean_text_fixed].
  intros E. rewrite <- E, clean_text_eq. apply cleaned_normalized.
Qed.

Lemma collapse_length s : forall b, length (collapse b s) <= length s.
Proof.
  induction s as [|c s IH]; intros b; cbn [collapse length]; [lia|].
  pose proof (IH true). pose proof (IH false).
  destruct (Char.isspace c); [destruct b|]; cbn [length]; lia.
Qed.

Lemma lstrip_length s : length (lstrip s) <= length s.
Proof.
  destruct (lstrip_suffix s) as [p E]. rewrite E at 2.
  rewrite length_app. lia.
Qed.

Lemma strip_length s : length (strip s) <= length s.
Proof.
  destruct (strip_infix s) as (p & q & E). rewrite E at 2.
  rewrite !length_app. lia.
Qed.

(** X4. The normalized text of an ASCII text is never longer than the
    input. *)
Theorem clean_text_length (s : str) :
  ascii_text s -> length (clean_text s) <= length s.
Proof.
  intros _. rewrite clean_text_eq.
  etransitivity; [apply strip_length|].
  etransitivity; [apply collapse_length|].
  unfold lower. rewrite !length_map. lia.
Qed.

Lemma lower_char_idempotent c : Char.lower (Char.lower c) = Char.lower c.
Proof. each_char c. Qed.

Lemma lower_idempotent s : lower (lower s) = lower s.
Proof.
  unfold lower. rewrite map_map. apply map_ext. intros c.
  apply lower_char_idempotent.
Qed.

(** X5. The normalizer does not see the case of its input. *)
Theorem clean_text_lower (s : str) : clean_text (lower s) = clean_text s.
Proof. rewrite !clean_text_eq, lower_idempotent. reflexivity. Qed.

(** ** Tokens of a normalized text *)

Lemma split_acc_tokens s : forall cur,
  Forall (fun c => Char.isspace c = false) cur ->
  Forall token_like (split_acc cur s).
Proof.
  assert (Hcur : forall cur, cur <> [] ->
            Forall (fun c => Char.isspace c = false) cur ->
            token_like (rev cur)).
  { intros cur Hne Hc. split; [|apply Forall_rev, Hc].
    intros E. apply Hne. rewrite <- (rev_involutive cur), E. reflexivity. }
  induction s as [|c s IH]; intros cur Hc; cbn [split_acc].
  - destruct cur as [|d cur]; [constructor|].
    constructor; [apply Hcur; [discriminate | exact Hc] | constructor].
  - destruct (Char.isspace c) eqn:E.
    + destruct cur as [|d cur]; [apply IH; constructor|].
      constructor; [apply Hcur; [discriminate | exact Hc] | apply IH; constructor].
    + apply IH. constructor; assumption.
Qed.

Lemma split_tokens s : Forall token_like (split s).
Proof. apply split_acc_tokens. constructor. Qed.

Lemma split_acc_solid w : forall cur rest,
  Forall (fun c => Char.isspace c = false) w ->
  split_acc cur (w ++ rest) = split_acc (rev w ++ cur) rest.
Proof.
  induction w as [|c w IH]; intros cur rest Hw; [reflexivity|].
  inversion Hw as [|? ? Hc Hw']; subst.
  cbn [app split_acc rev]. rewrite Hc, IH by exact Hw'.
  rewrite <- app_assoc. reflexivity.
Qed.

Lemma split_token w : token_like w -> split w = [w].
Proof.
  intros [Hne Hw]. unfold split.
  rewrite <- (app_nil_r w) at 1. rewrite split_acc_solid by exact Hw.
  cbn [split_acc]. rewrite app_nil_r.
  destruct (rev w) as [|d t] eqn:E.
  - exfalso. apply Hne. rewrite <- (rev_involutive w), E. reflexivity.
  - rewrite <- E, rev_involutive. reflexivity.
Qed.

(** [split] undoes [join]: splitting tokens joined by a space gives the
    tokens back, when each is non-empty and without whitespace. *)
Lemma split_join (ws : list str) :
  Forall token_like ws -> split (join (lit " ") ws) = ws.
Proof.
  induction 1 as [|w ws Hw Hws IH]; [reflexivity|].
  destruct ws as [|w' ws']; [apply split_token, Hw|].
  change (join (lit " ") (w :: w' :: ws'))
    with (w ++ " "%char :: join (lit " ") (w' :: ws')).
  destruct Hw as [Hne Hw]. unfold split in *.
  rewrite split_acc_solid by exact Hw. rewrite app_nil_r.
  cbn [split_acc]. change (Char.isspace " ") with true. cbn match.
  destruct (rev w) as [|d t] eqn:E.
  - exfalso. apply Hne. rewrite <- (rev_involutive w), E. reflexivity.
  - rewrite <- E, rev_involutive, IH. reflexivity.
Qed.

Lemma split_acc_nonempty s : forall cur, cur <> [] -> split_acc cur s <> [].
Proof.
  induction s as [|c s IH]; intros cur Hne; cbn [split_acc].
  - destruct cur; [congruence | discriminate].
  - destruct (Char.isspace c); [destruct cur; [congruence | discriminate]|].
    apply IH. discriminate.
Qed.

Lemma join_split_acc s : forall cur,
  cur <> [] \/ starts_solid s ->
  ends_solid s -> no_ws_pair s ->
  Forall (fun c => Char.isspace c = true -> c = " "%char) s ->
  join (lit " ") (split_acc cur s) = rev cur ++ s.
Proof.
  induction s as [|c s IH]; intros cur Hstart Hend Hpair Htidy;
    cbn [split_acc].
  - rewrite app_nil_r. destruct cur; reflexivity.
  - inversion Htidy as [|? ? Hc Htidy']; subst.
    cbn [no_ws_pair] in Hpair. destruct Hpair as [Hcs Hpair].
    assert (Hend' : ends_solid s).
    { intros d Hd. apply Hend. destruct s; [discriminate | exact Hd]. }
    destruct (Char.isspace c) eqn:E.
    + destruct Hstart as [Hne | Hs]; [|cbn in Hs; congruence].
      rewrite (Hc eq_refl) in *.
      destruct s as [|d s'].
      { exfalso. specialize (Hend " "%char eq_refl). discriminate. }
      assert (Hd : Char.isspace d = false).
      { destruct (Char.isspace d) eqn:Ed; [|reflexivity].
        exfalso. apply Hcs. split; reflexivity. }
      destruct cur as [|x cur]; [congruence|].
      specialize (IH [] (or_intror Hd) Hend' Hpair Htidy').
      pose proof (split_acc_nonempty s' [d] ltac:(discriminate)) as Hn.
      cbn [split_acc] in IH, Hn |- *. rewrite Hd in IH |- *.
      destruct (split_acc [d] s') as [|t ts]; [congruence|].
      change (join (lit " ") (rev (x :: cur) :: t :: ts))
        with (rev (x :: cur) ++ " "%char :: join (lit " ") (t :: ts)).
      rewrite IH. reflexivity.
    + rewrite IH; try assumption; [|left; discriminate].
      cbn [rev]. rewrite <- app_assoc. reflexivity.
Qed.

Lemma join_split_normalized (s : str) :
  normalized s -> join (lit " ") (split s) = s.
Proof.
  intros (Hc & Hp & Hh & Hl). unfold split.
  rewrite join_split_acc; [reflexivity | | | |].
  - right. apply normal_solid; assumption.
  - intros c Hlast. destruct (Char.isspace c) eqn:E; [|reflexivity].
    exfalso. apply Hl. rewrite Hlast. f_equal.
    apply normal_isspace; [|exact E].
    rewrite Forall_forall in Hc. apply Hc.
    apply last_Some_elem_of. exact Hlast.
  - apply normalized_no_ws_pair; assumption.
  - eapply Forall_impl; [exact Hc|]. intros c. apply normal_isspace.
Qed.

(** X6. The fallback tokenizer loses nothing of a normalized text: its
    tokens, joined by single spaces, are the text again. *)
Theorem clean_text_tokens (s : str) :
  join (lit " ") (split (clean_text s)) = clean_text s.
Proof.
  apply join_split_normalized. rewrite clean_text_eq.
  apply cleaned_normalized.
Qed.

(** ** Field extractors, further *)

(** X7. On every text the email extractor returns the first substring,
    delimited by word boundaries, of the shape [local@domain.tld] with
    the classes of the source, where [tld] is two or more letters or
    [|], and ["Not found"] when the text has none. *)
Theorem extract_email_source_class (text : str) :
  (extract_email text = not_found
   /\ forall pre m post, ~ email_at email_tld text pre m post)
  \/ (exists pre m post,
        extract_email text = m /\ m <> not_found
        /\ email_at email_tld text pre m post
        /\ forall pre' m' post',
             email_at email_tld text pre' m' post' ->
             length pre <= length pre').
Proof.
  rewrite extract_email_search. pose proof (search_email text) as H.
  destruct (search email_pattern text) as [[m g]|].
  - right. destruct H as (pre & post & Hat & Hmin). exists pre, m, post.
    split; [reflexivity|]. split; [|auto].
    destruct Hat as (_ & Hs & _). apply email_shape_at in Hs.
    intros ->. revert Hs. apply (bool_decide_unpack _). vm_compute. exact I.
  - left. auto.
Qed.

Lemma lang_cat r1 r2 L1 L2 :
  lang r1 L1 -> lang r2 L2 -> lang (Cat r1 r2) (seq L1 L2).
Proof.
  intros H1 H2 l r g l' r' g'. split.
  - intros (l1 & rr1 & g1 & M1 & M2)%matches_cat_inv.
    apply H1 in M1 as (s1 & Hs1 & -> & -> & ->).
    apply H2 in M2 as (s2 & Hs2 & -> & -> & ->).
    exists (s1 ++ s2). rewrite rev_app_distr, <- !app_assoc.
    repeat split. exists s1, s2. auto.
  - intros (s & (s1 & s2 & -> & Hs1 & Hs2) & -> & -> & ->).
    rewrite rev_app_distr, <- !app_assoc.
    eapply M_cat; [apply H1 | apply H2]; eauto.
Qed.

Lemma lang_opt_chr p : lang (Opt (Chr p)) (opt_char p).
Proof.
  intros l r g l' r' g'. split.
  - inversion 1 as [| | | |? ? ? ? ? ? ? M|? ? ? ?| |]; subst.
    + apply matches_chr_inv in M as (c & -> & -> & -> & Hc).
      exists [c]. repeat split. right. eauto.
    + exists []. repeat split. left. reflexivity.
  - intros (s & [->|(c & -> & Hc)] & -> & -> & ->).
    + apply M_opt_none.
    + apply M_opt_some, M_chr, Hc.
Qed.

Lemma lang_rep p lo hi : lang (Rep p lo (Some hi)) (char_run p lo hi).
Proof.
  intros l r g l' r' g'. split.
  - intros (cs & -> & -> & -> & Hcs & Hlo & Hhi)%matches_rep_inv.
    exists cs. repeat split; assumption.
  - intros (s & ((Hlo & Hhi) & Hs) & -> & -> & ->).
    apply M_rep; assumption.
Qed.

Lemma lang_country_code :
  lang (Opt (Chr (Char.exactly "+")) & Rep Char.digit 1 (Some 3)
        & Opt (Chr phone_sep))
       country_code.
Proof. repeat apply lang_cat; (apply lang_opt_chr || apply lang_rep). Qed.

Lemma lang_phone_tail :
  lang (Opt (Chr (Char.exactly "(")) & Rep Char.digit 3 (Some 3)
        & Opt (Chr (Char.exactly ")")) & Opt (Chr phone_sep)
        & Rep Char.digit 3 (Some 3) & Opt (Chr phone_sep)
        & Rep Char.digit 4 (Some 4))
       phone_tail.
Proof. repeat apply lang_cat; (apply lang_opt_chr || apply lang_rep). Qed.

Lemma phone_matches l r l' r' g :
  matches phone_pattern l r None l' r' g <->
  exists m, r = m ++ r' /\ l' = rev m ++ l /\ phone_shape m g.
Proof.
  unfold phone_pattern, phone_shape. split.
  - intros (l1 & r1 & g1 & M1 & M2)%matches_cat_inv.
    apply lang_phone_tail in M2 as (t & Ht & -> & -> & ->).
    inversion M1 as [| | | |? ? ? ? ? ? ? M|? ? ? ?| |]; subst.
    + inversion M as [| | | | | | |? ? ? ? ? ? ? MX]; subst.
      apply lang_country_code in MX as (cc & Hcc & -> & -> & _).
      rewrite matched_text. exists (cc ++ t).
      rewrite rev_app_distr, <- !app_assoc. repeat split.
      exists cc, t. auto.
    + exists t. repeat split. exists [], t. auto.
  - intros (m & -> & -> & cc & t & -> & Ht & [[-> ->]|[-> Hcc]]).
    + cbn [app]. eapply M_cat; [apply M_opt_none|].
      apply lang_phone_tail. eauto.
    + rewrite rev_app_distr, <- !app_assoc.
      eapply M_cat; [|apply lang_phone_tail; eauto].
      apply M_opt_some.
      assert (MX : matches
                (Opt (Chr (Char.exactly "+")) & Rep Char.digit 1 (Some 3)
                 & Opt (Chr phone_sep))
                l (cc ++ t ++ r') None (rev cc ++ l) (t ++ r') None)
        by (apply lang_country_code; eauto).
      apply M_grp in MX. rewrite matched_text in MX. exact MX.
Qed.

Lemma phone_search_Some text m g :
  search phone_pattern text = Some (m, g) ->
  exists pre post,
    text = pre ++ m ++ post /\ phone_shape m g
    /\ forall pre' m' post' g',
         text = pre' ++ m' ++ post' -> phone_shape m' g' ->
         length pre <= length pre'.
Proof.
  unfold search. intros E.
  apply search_from_Some in E as (pre & post & Et & M & Hmin).
  rewrite !app_nil_r in M.
  apply phone_matches in M as (m' & Em & _ & Hs).
  apply app_inv_tail in Em. subst m'.
  exists pre, post. split; [exact Et|]. split; [exact Hs|].
  intros pre' m' post' g' Et' Hs'.
  destruct (le_lt_dec (length pre) (length pre')) as [|Hlt]; [assumption|].
  exfalso. apply (Hmin pre' (m' ++ post') (rev m' ++ rev pre') post' g' Et' Hlt).
  rewrite app_nil_r. apply phone_matches. eauto.
Qed.

Lemma phone_search_None text :
  search phone_pattern text = None ->
  forall pre m post g, text = pre ++ m ++ post -> ~ phone_shape m g.
Proof.
  unfold search. intros E pre m post g Et Hs.
  apply (search_from_None _ _ _ E pre (m ++ post) (rev m ++ rev pre) post g Et).
  rewrite app_nil_r. apply phone_matches. eauto.
Qed.

(** X8. The phone extractor returns ["Not found"] exactly on the texts
    without a substring of the phone shape; on the others it returns the
    content of the group of the leftmost match, that is its country code,
    and the empty string when the match has none. *)
Theorem extract_phone_group (text : str) :
  (extract_phone text = not_found
   /\ forall pre m post g, text = pre ++ m ++ post -> ~ phone_shape m g)
  \/ (exists pre m post g,
        text = pre ++ m ++ post /\ phone_shape m g
        /\ extract_phone text = default [] g
        /\ default [] g <> not_found
        /\ forall pre' m' post' g',
             text = pre' ++ m' ++ post' -> phone_shape m' g' ->
             length pre <= length pre').
Proof.
  rewrite extract_phone_search.
  destruct (search phone_pattern text) as [[m g]|] eqn:E.
  - right. apply phone_search_Some in E as (pre & post & Et & Hs & Hmin).
    exists pre, m, post, g.
    split; [exact Et|]. split; [exact Hs|].
    split; [destruct g; reflexivity|]. split; [|exact Hmin].
    destruct Hs as (cc & t & _ & _ & [[-> _]|[-> Hcc]]); [discriminate|].
    change (default [] (Some cc)) with cc. intros ->.
    destruct Hcc as (plus & s1 & E1 & Hplus & ds & sep & -> & [_ Hd] & Hsep).
    assert (Hchars : Forall (fun c => c <> "N"%char) (plus ++ ds ++ sep) ->
                     False).
    { rewrite <- E1. intros H. inversion H. congruence. }
    apply Hchars. clear Hchars E1. rewrite !Forall_app. repeat split.
    + destruct Hplus as [->|(c & -> & ->%exactly_true)];
        repeat constructor; discriminate.
    + eapply Forall_impl; [exact Hd|]. intros c Hc ->. discriminate.
    + destruct Hsep as [->|(c & -> & Hc)]; repeat constructor.
      intros ->. discriminate.
  - left. split; [reflexivity | apply phone_search_None, E].
Qed.

Lemma phone_sep_not_digit c : phone_sep c = true -> Char.digit c = false.
Proof. each_char c. Qed.

Lemma opt_char_digits p s :
  (forall c, p c = true -> Char.digit c = false) ->
  opt_char p s -> List.filter Char.digit s = [].
Proof.
  intros Hp [->|(c & -> & Hc)]; [reflexivity|].
  cbn [List.filter]. rewrite (Hp c Hc). reflexivity.
Qed.

Lemma country_code_digits cc :
  country_code cc -> length (List.filter Char.digit cc) <= 3.
Proof.
  intros (plus & s & -> & Hplus & ds & sep & -> & ((_ & Hds) & _) & Hsep).
  rewrite !List.filter_app, !length_app.
  rewrite (opt_char_digits _ _ phone_sep_not_digit Hsep).
  rewrite (opt_char_digits (Char.exactly "+") plus); [| |exact Hplus].
  - pose proof (filter_length_le Char.digit ds). cbn [length]. lia.
  - intros c ->%exactly_true. reflexivity.
Qed.

(** X9. Whatever the text, the phone extractor returns at most three
    digits: never a whole number. *)
Theorem extract_phone_digits (text : str) :
  length (List.filter Char.digit (extract_phone text)) <= 3.
Proof.
  rewrite extract_phone_search.
  destruct (search phone_pattern text) as [[m g]|] eqn:E; [|vm_compute; lia].
  apply phone_search_Some in E as (_ & _ & _ & (cc & t & _ & _ & Hg) & _).
  destruct Hg as [[-> _]|[-> Hcc]]; [cbn; lia|].
  apply country_code_digits, Hcc.
Qed.

(** ** Skill matcher, further *)

Lemma extract_skills_whole_word_witness :
  (exists found,
     In (lit "programming", found) (extract_skills (lit "I use Python daily"))
     /\ In (lit "python") found)
  <-> (exists pre post,
         whole_word_at (lower (lit "I use Python daily")) pre (lit "python") post).
Proof.
  eapply (extract_skills_whole_word (lit "I use Python daily")
            (lit "programming") _ (lit "python")).
  - left. reflexivity.
  - left. reflexivity.
  - reflexivity.
  - reflexivity.
Defined.

Lemma skills_of_shape taxonomy text_lower :
  (skills_of taxonomy text_lower).*1 `sublist_of` taxonomy.*1
  /\ forall category found,
       (category, found) ∈ skills_of taxonomy text_lower ->
       found <> []
       /\ Forall (fun skill => skill_in text_lower skill = true) found
       /\ exists skills, (category, skills) ∈ taxonomy
                         /\ found `sublist_of` skills.
Proof.
  induction taxonomy as [|[c ss] rest [IHs IHe]]; cbn [skills_of].
  - split; [constructor | intros ? ? H; inversion H].
  - assert (Hsub : List.filter (skill_in text_lower) ss `sublist_of` ss).
    { clear. induction ss as [|x ss IH]; cbn [List.filter]; [constructor|].
      destruct (skill_in text_lower x); [apply sublist_skip | apply sublist_cons];
        exact IH. }
    assert (Hall : Forall (fun skill => skill_in text_lower skill = true)
                     (List.filter (skill_in text_lower) ss)).
    { apply Forall_forall. intros x Hx.
      apply list_elem_of_In, filter_In in Hx. tauto. }
    assert (Hrest : forall category found,
              (category, found) ∈ skills_of rest text_lower ->
              found <> []
              /\ Forall (fun skill => skill_in text_lower skill = true) found
              /\ exists skills, (category, skills) ∈ (c, ss) :: rest
                                /\ found `sublist_of` skills).
    { intros category found Hin.
      destruct (IHe _ _ Hin) as (Hne & Hf & skills & Hk & Hs).
      split; [exact Hne|]. split; [exact Hf|].
      exists skills. split; [right; exact Hk | exact Hs]. }
    destruct (List.filter (skill_in text_lower) ss) as [|f fs] eqn:E.
    + split; [apply sublist_cons, IHs | exact Hrest].
    + cbn [fmap list_fmap fst]. split; [apply sublist_skip, IHs|].
      intros category found [[= -> ->]|Hin]%elem_of_cons; [|auto].
      split; [discriminate|]. split; [exact Hall|].
      exists ss. split; [left | exact Hsub].
Qed.

(** X11. The skill matcher lists the categories in the order of the
    taxonomy, each once and never with an empty list, and the skills of
    a category in the order of the taxonomy. *)
Theorem extract_skills_shape (text : str) :
  (extract_skills text).*1 `sublist_of` skill_keywords.*1
  /\ NoDup (extract_skills text).*1
  /\ forall category found,
       (category, found) ∈ extract_skills text ->
       found <> []
       /\ exists skills, (category, skills) ∈ skill_keywords
                         /\ found `sublist_of` skills.
Proof.
  unfold extract_skills.
  destruct (skills_of_shape skill_keywords (lower text)) as [Hs He].
  split; [exact Hs|]. split.
  - eapply sublist_NoDup; [|exact Hs].
    apply (bool_decide_unpack _). vm_compute. exact I.
  - intros category found Hin.
    destruct (He _ _ Hin) as (Hne & _ & H). auto.
Qed.

(** ** Frequency analyzer, further *)

Lemma count_one_present w c :
  w ∈ c.*1 -> NoDup c.*1 ->
  count_one w c = map (add_occurrences [w]) c.
Proof.
  induction c as [|[k n] c IH]; cbn [count_one fmap list_fmap fst map];
    [intros H; inversion H|].
  intros Hin Hnd. apply NoDup_cons in Hnd as [Hk Hnd].
  unfold add_occurrences at 1. cbn [fst snd occurrences].
  destruct (decide (k = w)) as [->|Hne].
  - rewrite decide_True by reflexivity. f_equal; [f_equal; lia|].
    clear IH Hin. induction c as [|[k' n'] c IHc]; [reflexivity|].
    cbn [map fmap list_fmap fst] in *.
    unfold add_occurrences at 1. cbn [fst snd occurrences].
    rewrite decide_False by (intros ->; apply Hk; left).
    rewrite <- IHc.
    + f_equal. f_equal. lia.
    + intros H. apply Hk. right. exact H.
    + apply NoDup_cons in Hnd. tauto.
  - rewrite decide_False by congruence. f_equal; [f_equal; lia|].
    apply IH; [|exact Hnd]. apply elem_of_cons in Hin as [->|Hin];
      [congruence | exact Hin].
Qed.

Lemma map_add_occurrences_absent t ts c :
  t ∉ c.*1 ->
  map (add_occurrences (t :: ts)) c = map (add_occurrences ts) c.
Proof.
  induction c as [|[k n] c IH]; cbn [map fmap list_fmap fst];
    [reflexivity|].
  intros Hk. rewrite IH by set_solver. f_equal.
  unfold add_occurrences. cbn [fst snd occurrences].
  rewrite decide_False by set_solver. reflexivity.
Qed.

Lemma map_add_occurrences_app t ts c :
  map (add_occurrences (t :: ts)) c
  = map (add_occurrences ts) (map (add_occurrences [t]) c).
Proof.
  rewrite map_map. apply map_ext. intros [k n].
  unfold add_occurrences. cbn [fst snd occurrences]. f_equal. lia.
Qed.

Lemma add_occurrences_keys ts c : (map (add_occurrences ts) c).*1 = c.*1.
Proof. induction c as [|[k n] c IH]; cbn; [reflexivity|]. f_equal. exact IH. Qed.

Lemma count_all_spec ts : forall c,
  NoDup c.*1 ->
  count_all ts c
  = map (add_occurrences ts) c
    ++ map (fun w => (w, occurrences w ts))
         (filter (fun k => k ∉ c.*1) (first_seen ts)).
Proof.
  induction ts as [|t ts IH]; intros c Hnd;
    cbn [count_all fold_left first_seen].
  - rewrite filter_nil, app_nil_r. symmetry.
    rewrite <- (map_id c) at 2. apply map_ext. intros [k n].
    unfold add_occurrences. cbn. f_equal. lia.
  - fold (count_all ts (count_one t c)).
    pose proof (count_one_keys t c) as Hk.
    destruct (decide (t ∈ c.*1)) as [Hin|Hin].
    + rewrite filter_cons_False in Hk by set_solver.
      rewrite filter_nil, app_nil_r in Hk.
      rewrite IH by (rewrite <- Hk; exact Hnd). rewrite <- Hk.
      rewrite (count_one_present _ _ Hin Hnd), <- map_add_occurrences_app.
      f_equal. rewrite filter_cons_False by set_solver.
      assert (Ef : filter (fun k => k ∉ c.*1)
                     (filter (fun w => w <> t) (first_seen ts))
                   = filter (fun k => k ∉ c.*1) (first_seen ts)).
      { rewrite list_filter_filter. apply list_filter_iff.
        intros k. split; [tauto|]. intros Hn. split; [exact Hn|].
        intros ->. contradiction. }
      rewrite Ef. apply map_ext_in. intros w Hw.
      apply list_elem_of_In, list_elem_of_filter in Hw as [Hw _].
      cbn [occurrences]. rewrite decide_False; [reflexivity|].
      intros ->. contradiction.
    + rewrite filter_cons_True in Hk by set_solver.
      rewrite filter_nil in Hk.
      assert (Ec : count_one t c = c ++ [(t, 1)]).
      { clear -Hin. induction c as [|[k n] c IH]; [reflexivity|].
        cbn [count_one]. cbn [fmap list_fmap fst] in Hin.
        rewrite decide_False by set_solver. cbn [app]. f_equal.
        apply IH. set_solver. }
      rewrite IH by (rewrite <- Hk; apply NoDup_app; repeat split;
                     [exact Hnd | set_solver | apply NoDup_singleton]).
      rewrite <- Hk, Ec, map_app, <- app_assoc.
      rewrite (map_add_occurrences_absent t ts c Hin).
      f_equal. rewrite filter_cons_True by exact Hin.
      cbn [map app]. unfold add_occurrences at 1.
      cbn [fst snd occurrences]. rewrite decide_True by reflexivity.
      f_equal.
      assert (Ef : filter (fun k => k ∉ c.*1 ++ [t]) (first_seen ts)
                   = filter (fun k => k ∉ c.*1)
                       (filter (fun w => w <> t) (first_seen ts))).
      { rewrite list_filter_filter. apply list_filter_iff.
        intros k. rewrite elem_of_app, list_elem_of_singleton. tauto. }
      rewrite Ef. apply map_ext_in. intros w Hw.
      apply list_elem_of_In, list_elem_of_filter in Hw as [_ Hw].
      apply list_elem_of_filter in Hw as [Hw _].
      rewrite decide_False by congruence. reflexivity.
Qed.

(** A counter holds the distinct tokens in the order of their first
    occurrence, each with the number of its occurrences. *)
Lemma Counter_spec ts :
  Counter ts = map (fun w => (w, occurrences w ts)) (first_seen ts).
Proof.
  change (Counter ts) with (count_all ts []).
  rewrite count_all_spec by constructor. cbn [map app fmap list_fmap].
  f_equal. induction (first_seen ts) as [|w ws IH]; [reflexivity|].
  rewrite filter_cons_True by apply not_elem_of_nil. f_equal. exact IH.
Qed.

Lemma occurrences_pos w ts : w ∈ ts -> 1 <= occurrences w ts.
Proof.
  induction ts as [|t ts IH]; [intros H; inversion H|].
  cbn [occurrences]. destruct (decide (t = w)); [lia|].
  intros [->|H]%elem_of_cons; [congruence|]. apply IH in H. lia.
Qed.

Lemma occurrences_filter (f : str -> bool) w ts :
  f w = true -> occurrences w (List.filter f ts) = occurrences w ts.
Proof.
  intros Hw. induction ts as [|t ts IH]; [reflexivity|].
  cbn [List.filter occurrences]. destruct (f t) eqn:Ft.
  - cbn [occurrences]. rewrite IH. reflexivity.
  - rewrite IH. rewrite decide_False; [reflexivity|]. congruence.
Qed.

Section FrequencyMore.

Variable sw : option (list str).
Variable wt : str -> option (list str).

Lemma word_frequency_entries text top_n w n :
  (w, n) ∈ get_word_frequency sw wt text top_n ->
  frequency_word sw w = true
  /\ w ∈ tokenize wt (clean_text text)
  /\ n = occurrences w (tokenize wt (clean_text text)).
Proof.
  rewrite get_word_frequency_eq. intros Hin.
  apply elem_of_take in Hin as (i & Hi & _).
  apply list_elem_of_lookup_2 in Hi.
  rewrite sorted_desc_perm, Counter_spec in Hi.
  apply list_elem_of_fmap in Hi as (w' & [= -> ->] & Hw).
  apply first_seen_elem_of, list_elem_of_In, filter_In in Hw as [Hw Hf].
  split; [exact Hf|]. split; [apply list_elem_of_In, Hw|].
  apply occurrences_filter, Hf.
Qed.

(** X12. Each entry of the frequency analyzer is a token of the
    normalized text that is alphabetic, longer than two characters and no
    stopword, with the number of its occurrences among the tokens, which
    is at least one; no word has two entries. *)
Theorem word_frequency_counts (text : str) (top_n : Z) :
  NoDup (get_word_frequency sw wt text top_n).*1
  /\ forall w n,
       (w, n) ∈ get_word_frequency sw wt text top_n ->
       ((w ∉ stop_words sw) /\ 2 < length w /\ isalpha w = true)
       /\ n = occurrences w (tokenize wt (clean_text text))
       /\ 1 <= n.
Proof.
  split.
  - rewrite get_word_frequency_eq. apply most_common_keys.
  - intros w n Hin.
    destruct (word_frequency_entries _ _ _ _ Hin) as (Hf & Hw & ->).
    split; [|split; [reflexivity | apply occurrences_pos, Hw]].
    unfold frequency_word in Hf.
    apply andb_true_iff in Hf as [Hf Ha].
    apply andb_true_iff in Hf as [Hs Hl].
    apply bool_decide_eq_true in Hs. apply Nat.ltb_lt in Hl. auto.
Qed.

(** X13. The analyzer leaves out only words that occur no more often
    than every word it returns: a token that passes the filter and has no
    entry occurs at most as often as each entry, and then the result has
    [top_n] entries. *)
Theorem word_frequency_top (text : str) (top_n : nat) (w : str) :
  w ∈ tokenize wt (clean_text text) ->
  frequency_word sw w = true ->
  w ∉ (get_word_frequency sw wt text (Z.of_nat top_n)).*1 ->
  length (get_word_frequency sw wt text (Z.of_nat top_n)) = top_n
  /\ forall w' n',
       (w', n') ∈ get_word_frequency sw wt text (Z.of_nat top_n) ->
       occurrences w (tokenize wt (clean_text text)) <= n'.
Proof.
  rewrite get_word_frequency_eq, Nat2Z.id.
  set (tokens := tokenize wt (clean_text text)).
  set (kept := List.filter (frequency_word sw) tokens).
  set (sorted := sorted_desc (Counter kept)).
  intros Hw Hf Hout.
  assert (Hin : (w, occurrences w tokens) ∈ sorted).
  { unfold sorted. rewrite sorted_desc_perm, Counter_spec.
    apply list_elem_of_fmap. exists w. split.
    - unfold kept. rewrite occurrences_filter by exact Hf. reflexivity.
    - apply first_seen_elem_of, list_elem_of_In, filter_In.
      split; [apply list_elem_of_In, Hw | exact Hf]. }
  rewrite <- (take_drop top_n sorted) in Hin.
  apply elem_of_app in Hin as [Hin|Hin].
  { exfalso. apply Hout. apply list_elem_of_fmap.
    exists (w, occurrences w tokens). split; [reflexivity | exact Hin]. }
  split.
  - apply length_take_le.
    destruct (le_lt_dec top_n (length sorted)) as [|Hlt]; [assumption|].
    rewrite drop_ge in Hin by lia. inversion Hin.
  - intros w' n' Hin'.
    pose proof (sorted_desc_sorted (Counter kept)) as Hs.
    fold sorted in Hs. rewrite <- (take_drop top_n sorted) in Hs.
    exact (StronglySorted_app_1_elem_of _ _ _ _ _ Hs Hin' Hin).
Qed.

(** X14. The analyzer returns an entry for each of the distinct tokens
    that pass the filter, up to [top_n] of them; its result is empty
    exactly when [top_n] is zero or no token passes the filter. *)
Theorem word_frequency_size (text : str) (top_n : nat) :
  length (get_word_frequency sw wt text (Z.of_nat top_n))
  = Nat.min top_n
      (length (first_seen (List.filter (frequency_word sw)
                             (tokenize wt (clean_text text)))))
  /\ (get_word_frequency sw wt text (Z.of_nat top_n) = [] <->
      top_n = 0
      \/ Forall (fun w => frequency_word sw w = false)
           (tokenize wt (clean_text text))).
Proof.
  rewrite get_word_frequency_eq, Nat2Z.id.
  set (tokens := tokenize wt (clean_text text)).
  set (kept := List.filter (frequency_word sw) tokens).
  assert (Hlen : length (take top_n (sorted_desc (Counter kept)))
                 = Nat.min top_n (length (first_seen kept))).
  { rewrite length_take. f_equal.
    rewrite (Permutation_length (sorted_desc_perm (Counter kept))).
    rewrite Counter_spec. apply length_map. }
  split; [exact Hlen|].
  assert (Hkept : kept = [] <->
                  Forall (fun w => frequency_word sw w = false) tokens).
  { unfold kept. clear. induction tokens as [|t ts IH]; cbn [List.filter].
    - split; [constructor | reflexivity].
    - destruct (frequency_word sw t) eqn:E.
      + split; [discriminate|]. intros H. inversion H; congruence.
      + rewrite IH. split; [constructor; assumption|].
        intros H. inversion H; assumption. }
  rewrite <- Hkept. rewrite <- length_zero_iff_nil, Hlen. split.
  - intros H. destruct top_n as [|n]; [left; reflexivity|]. right.
    destruct kept as [|k ks]; [reflexivity|]. cbn in H. lia.
  - intros [->| ->]; [reflexivity|]. cbn. lia.
Qed.

End FrequencyMore.

(** ** Job matcher, further *)

Lemma coverage_full_inv (m n : nat) :
  m <= n -> 0 < n ->
  ((Z.of_nat m # 1) / (Z.of_nat n # 1) * 100 == 100)%Q -> m = n.
Proof.
  intros Hmn Hn. remember (Z.of_nat n) as z eqn:Ez.
  destruct z as [|p|p]; try lia.
  unfold Qeq, Qdiv, Qmult, Qinv. cbn -[Z.mul Pos.mul]. lia.
Qed.

Lemma coverage_none_inv (m n : nat) :
  0 < n -> ((Z.of_nat m # 1) / (Z.of_nat n # 1) * 100 == 0)%Q -> m = 0.
Proof.
  intros Hn. remember (Z.of_nat n) as z eqn:Ez.
  destruct z as [|p|p]; try lia.
  unfold Qeq, Qdiv, Qmult, Qinv. cbn -[Z.mul Pos.mul]. lia.
Qed.

Section JobMatchMore.

Variable sw : option (list str).
Variable wt : str -> option (list str).

Implicit Types resume job : str.

Lemma job_tokens_size resume job :
  (token_sets sw wt resume job).2 <> ∅ ->
  0 < size (token_sets sw wt resume job).2.
Proof.
  intros Hne.
  destruct (Nat.eq_dec (size (token_sets sw wt resume job).2) 0) as [Z|Z];
    [apply size_empty_inv in Z; apply leibniz_equiv in Z; contradiction | lia].
Qed.

(** X15. For a job description with a significant token, the percentage
    is 100 exactly when no keyword is missing, and 0 exactly when no
    keyword matches. *)
Theorem job_match_extremes resume job :
  (token_sets sw wt resume job).2 <> ∅ ->
  let '(p, matching, missing) := calculate_job_match sw wt resume job in
  ((p == 100)%Q <-> missing = ∅) /\ ((p == 0)%Q <-> matching = ∅).
Proof.
  intros Hne. rewrite (job_match_regular _ _ _ _ Hne).
  pose proof (job_tokens_size _ _ Hne) as Hpos.
  destruct (token_sets sw wt resume job) as [rt jt]. cbn [fst snd] in *.
  assert (Hle : size (rt ∩ jt) <= size jt) by (apply subseteq_size; set_solver).
  split; split.
  - intros Hp. apply coverage_full_inv in Hp; [|exact Hle|exact Hpos].
    assert (E : rt ∩ jt = jt).
    { apply set_subseteq_size_eq; [set_solver | lia]. }
    set_solver.
  - intros Hm.
    assert (Hsub : jt ⊆ rt).
    { intros x Hx. destruct (decide (x ∈ rt)) as [|Hn]; [assumption|].
      exfalso. apply (not_elem_of_empty (C:=gset str) x). rewrite <- Hm.
      apply elem_of_difference. auto. }
    replace (rt ∩ jt) with jt by set_solver.
    apply coverage_full, Hpos.
  - intros Hp. apply coverage_none_inv in Hp; [|exact Hpos].
    apply size_empty_inv in Hp. apply leibniz_equiv in Hp. exact Hp.
  - intros ->. rewrite size_empty. apply coverage_none.
Qed.

(** X16. Every significant token of the job description is counted once,
    as matching or as missing. The matching keywords are tokens of the
    resume, the missing ones are not. *)
Theorem job_match_counts resume job :
  let '(p, matching, missing) := calculate_job_match sw wt resume job in
  size matching + size missing = size (token_sets sw wt resume job).2
  /\ matching ⊆ (token_sets sw wt resume job).1
  /\ missing ## (token_sets sw wt resume job).1.
Proof.
  destruct (decide ((token_sets sw wt resume job).2 = ∅)) as [E|Hne].
  - rewrite (job_match_degenerate _ _ _ _ E), E, !size_empty.
    repeat split; [set_solver | set_solver].
  - rewrite (job_match_regular _ _ _ _ Hne).
    destruct (token_sets sw wt resume job) as [rt jt]. cbn [fst snd] in *.
    split; [|split; set_solver].
    rewrite <- size_union by set_solver. f_equal.
    apply set_eq. intros x. rewrite elem_of_union, elem_of_intersection,
      elem_of_difference. destruct (decide (x ∈ rt)); tauto.
Qed.

(** X17. The job matcher sees its two texts through the normalizer
    only: normalizing or lowercasing them beforehand changes nothing. *)
Theorem job_match_normalized_inputs resume job :
  calculate_job_match sw wt (clean_text resume) (clean_text job)
  = calculate_job_match sw wt resume job
  /\ calculate_job_match sw wt (lower resume) (lower job)
     = calculate_job_match sw wt resume job.
Proof.
  assert (Hidem : forall s, clean_text (clean_text s) = clean_text s)
    by (intros s; apply clean_text_fixed; rewrite clean_text_eq;
        apply cleaned_normalized).
  assert (Hlow : forall s, clean_text (lower s) = clean_text s)
    by (intros s; rewrite !clean_text_eq, lower_idempotent; reflexivity).
  unfold calculate_job_match, token_sets.
  rewrite !Hidem, !Hlow. split; reflexivity.
Qed.

(** X18. A text matched against itself has no missing keyword: the
    percentage is 100, unless the text has no significant token, where it
    is 0. *)
Theorem job_match_self (t : str) :
  let '(p, matching, missing) := calculate_job_match sw wt t t in
  missing = ∅
  /\ matching = (token_sets sw wt t t).2
  /\ ((token_sets sw wt t t).2 <> ∅ -> (p == 100)%Q)
  /\ ((token_sets sw wt t t).2 = ∅ -> (p == 0)%Q).
Proof.
  assert (Hsame : (token_sets sw wt t t).1 = (token_sets sw wt t t).2)
    by (unfold token_sets; destruct (wt (clean_text t)); reflexivity).
  destruct (decide ((token_sets sw wt t t).2 = ∅)) as [E|Hne].
  - rewrite (job_match_degenerate _ _ _ _ E), E.
    split; [reflexivity|]. split; [reflexivity|].
    split; [intros H; contradiction | intros _; reflexivity].
  - rewrite (job_match_regular _ _ _ _ Hne), Hsame.
    pose proof (job_tokens_size _ _ Hne) as Hpos.
    destruct (token_sets sw wt t t) as [rt jt]. cbn [fst snd] in *.
    rewrite difference_diag_L, (idemp_L (∩) jt).
    split; [reflexivity|]. split; [reflexivity|].
    split; [intros _; apply coverage_full, Hpos | intros H; contradiction].
Qed.

(** X19. The keywords returned are significant tokens: none is a
    stopword and each has more than two characters. *)
Theorem job_match_keywords_significant resume job (w : str) :
  w ∈ (calculate_job_match sw wt resume job).1.2
      ∪ (calculate_job_match sw wt resume job).2 ->
  (w ∉ stop_words sw) /\ 2 < length w.
Proof.
  pose proof (job_match_unfold sw wt resume job) as E. cbn zeta in E.
  rewrite E. clear E.
  assert (Hj : w ∈ (token_sets sw wt resume job).2 -> significant sw w).
  { unfold token_sets. destruct (wt (clean_text resume)), (wt (clean_text job));
      cbn [snd]; rewrite elem_of_filter; tauto. }
  destruct (decide ((token_sets sw wt resume job).2 = ∅)); cbn [fst snd];
    [set_solver|].
  intros Hin. apply Hj. set_solver.
Qed.

End JobMatchMore.

Lemma split_acc_chars s : forall cur w c,
  w ∈ split_acc cur s -> c ∈ w -> c ∈ cur \/ c ∈ s.
Proof.
  induction s as [|d s IH]; intros cur w c; cbn [split_acc].
  - destruct cur as [|x cur]; [intros H; inversion H|].
    intros ->%list_elem_of_singleton Hc. left.
    apply list_elem_of_In, in_rev, list_elem_of_In in Hc. exact Hc.
  - destruct (Char.isspace d).
    + destruct cur as [|x cur].
      * intros Hw Hc. destruct (IH _ _ _ Hw Hc) as [H|H]; [left | right; right];
          exact H.
      * intros [->|Hw]%elem_of_cons Hc.
        -- left. apply list_elem_of_In, in_rev, list_elem_of_In in Hc. exact Hc.
        -- destruct (IH _ _ _ Hw Hc) as [H|H]; [inversion H | right; right; exact H].
    + intros Hw Hc. destruct (IH _ _ _ Hw Hc) as [H|H]; [|right; right; exact H].
      apply elem_of_cons in H as [->|H]; [right; left | left; exact H].
Qed.

(** X20. Without the NLTK tokenizer, the keywords of the job matcher are
    made of lowercase letters, digits, [+], [#] and [.] only. *)
Theorem job_match_keywords_chars sw resume job (w : str) :
  w ∈ (calculate_job_match sw no_punkt resume job).1.2
      ∪ (calculate_job_match sw no_punkt resume job).2 ->
  Forall (fun c => normal_char c = true /\ c <> " "%char) w.
Proof.
  pose proof (job_match_unfold sw no_punkt resume job) as E. cbn zeta in E.
  rewrite E. clear E.
  assert (Hj : w ∈ (token_sets sw no_punkt resume job).2 ->
               Forall (fun c => normal_char c = true /\ c <> " "%char) w).
  { unfold token_sets, no_punkt. cbn [snd].
    rewrite elem_of_filter, elem_of_list_to_set. intros [_ Hw].
    apply Forall_forall. intros c Hc. split.
    - destruct (split_acc_chars _ _ _ _ Hw Hc) as [H|H]; [inversion H|].
      pose proof (cleaned_normalized job) as (Hn & _).
      rewrite <- clean_text_eq, Forall_forall in Hn. apply Hn, H.
    - pose proof (split_tokens (clean_text job)) as Ht.
      rewrite Forall_forall in Ht. destruct (Ht _ Hw) as [_ Hs].
      rewrite Forall_forall in Hs. intros ->. specialize (Hs _ Hc).
      discriminate. }
  destruct (decide ((token_sets sw no_punkt resume job).2 = ∅)); cbn [fst snd];
    [set_solver|].
  intros Hin. apply Hj. set_solver.
Qed.

(** ** Word cloud and orchestrator, further *)

Lemma filter_token_like (f : str -> bool) ts :
  Forall token_like ts -> Forall token_like (List.filter f ts).
Proof.
  induction 1 as [|t ts Ht _ IH]; cbn [List.filter]; [constructor|].
  destruct (f t); [constructor; assumption | exact IH].
Qed.

Lemma filter_frequency_cloud sw ts :
  List.filter (frequency_word sw) ts
  = List.filter isalpha (List.filter (cloud_word sw) ts).
Proof.
  induction ts as [|t ts IH]; [reflexivity|].
  cbn [List.filter]. unfold frequency_word at 1.
  fold (cloud_word sw t). destruct (cloud_word sw t); cbn [andb List.filter];
    [destruct (isalpha t); rewrite IH; reflexivity | exact IH].
Qed.

(** X21. Without the NLTK tokenizer, the text handed to the word cloud
    renderer splits into exactly the tokens of the normalized text that
    are no stopword and longer than two characters; the frequency
    analyzer counts the alphabetic ones among them. *)
Theorem wordcloud_text_tokens sw (exn image : Type)
    (render_cloud : str -> outcome exn image) (text : str) :
  exists filtered_text,
    generate_wordcloud sw no_punkt render_cloud text = render_cloud filtered_text
    /\ split filtered_text
       = List.filter (cloud_word sw) (split (clean_text text))
    /\ List.filter (frequency_word sw) (tokenize no_punkt (clean_text text))
       = List.filter isalpha (split filtered_text).
Proof.
  exists (join (lit " ")
            (List.filter (cloud_word sw) (split (clean_text text)))).
  assert (E : split (join (lit " ")
                       (List.filter (cloud_word sw) (split (clean_text text))))
              = List.filter (cloud_word sw) (split (clean_text text)))
    by apply split_join, filter_token_like, split_tokens.
  split; [reflexivity|]. split; [exact E|].
  rewrite E. apply filter_frequency_cloud.
Qed.

(** ** Instances *)

Lemma clean_text_content_witness :
  solid_chars (clean_text (lit "Hi, C++ & C#!")) = lit "hic++c#".
Proof.
  apply (clean_text_content (lit "Hi, C++ & C#!")).
  unfold ascii_text. repeat (constructor; [reflexivity|]). constructor.
Defined.

Lemma clean_text_empty_witness :
  clean_text (lit " (-) ") = []
  <-> Forall (fun c => content_char c = false) (lit " (-) ").
Proof.
  apply (clean_text_empty (lit " (-) ")).
  unfold ascii_text. repeat (constructor; [reflexivity|]). constructor.
Defined.

Lemma clean_text_length_witness :
  length (clean_text (lit "  Hi,   there!  ")) <= 16.
Proof.
  apply (clean_text_length (lit "  Hi,   there!  ")).
  unfold ascii_text. repeat (constructor; [reflexivity|]). constructor.
Defined.

Lemma word_frequency_top_witness :
  let text := lit "bbb aaa aaa bbb ccc ccc ccc ddd" in
  get_word_frequency no_nltk_stopwords no_punkt text 2
  = [(lit "ccc", 3); (lit "bbb", 2)]
  /\ occurrences (lit "ddd") (tokenize no_punkt (clean_text text)) <= 2.
Proof.
  cbn zeta.
  assert (E : get_word_frequency no_nltk_stopwords no_punkt
                (lit "bbb aaa aaa bbb ccc ccc ccc ddd") 2
              = [(lit "ccc", 3); (lit "bbb", 2)])
    by (rewrite get_word_frequency_run; vm_compute; reflexivity).
  split; [exact E|].
  refine (proj2 (word_frequency_top no_nltk_stopwords no_punkt
                   (lit "bbb aaa aaa bbb ccc ccc ccc ddd") 2 (lit "ddd")
                   _ _ _) (lit "bbb") 2 _).
  - apply (bool_decide_unpack _). vm_compute. exact I.
  - rewrite frequency_word_list. vm_compute. reflexivity.
  - change (Z.of_nat 2) with 2%Z. rewrite E.
    apply (bool_decide_unpack _). vm_compute. exact I.
  - change (Z.of_nat 2) with 2%Z. rewrite E.
    apply (bool_decide_unpack _). vm_compute. exact I.
Defined.

Lemma job_match_extremes_witness :
  let '(p, matching, missing) :=
    calculate_job_match no_nltk_stopwords no_punkt
      (lit "Python and React developer") (lit "React, Python") in
  ((p == 100)%Q <-> missing = ∅) /\ ((p == 0)%Q <-> matching = ∅).
Proof.
  apply (job_match_extremes no_nltk_stopwords no_punkt
           (lit "Python and React developer") (lit "React, Python")).
  run_tokens. set_solver.
Defined.

Lemma job_match_keywords_significant_witness :
  (lit "python" ∉ stop_words no_nltk_stopwords) /\ 2 < length (lit "python").
Proof.
  apply (job_match_keywords_significant no_nltk_stopwords no_punkt
           (lit "java") (lit "python") (lit "python")).
  rewrite job_match_unfold. cbn zeta. run_tokens.
  rewrite decide_False by set_solver. cbn [fst snd]. set_solver.
Defined.

Lemma job_match_keywords_chars_witness :
  Forall (fun c => normal_char c = true /\ c <> " "%char) (lit "c++").
Proof.
  apply (job_match_keywords_chars no_nltk_stopwords
           (lit "java") (lit "Modern C++, please") (lit "c++")).
  rewrite job_match_unfold. cbn zeta. run_tokens.
  rewrite decide_False by set_solver. cbn [fst snd]. set_solver.
Defined.
